(** * Co-championship graph: construction, path enumeration, scoring, selection

    A shallow embedding of the notebook [map_creating&selection.ipynb]:
    the graph built from the roster table, [precompute_unique_paths],
    [query_paths_with_node], [compute_group_score] and [find_max_group],
    together with the part of [networkx.Graph] and of [pandas] that these
    cells call. *)

From Stdlib Require Import ZArith Ascii.
From Stdlib Require String.
From stdpp Require Import base option list sorting gmap strings.

Local Open Scope Z_scope.

(** ** Outcomes of a Python computation *)

(** The two exceptions the graph calls of the notebook can raise:
    a [dict] indexed at a missing key, and [G.neighbors] on a missing node. *)
Inductive exn : Type :=
  | KeyError
  | NetworkXError.

(** [OutOfFuel] is the outcome of the bounded model of a recursive function
    whose bound was too small; it is no Python outcome. *)
Inductive result (A : Type) : Type :=
  | Ok (a : A)
  | Raise (e : exn)
  | OutOfFuel.
Arguments Ok {A} a.
Arguments Raise {A} e.
Arguments OutOfFuel {A}.

Global Instance result_ret : MRet result := @Ok.

Global Instance result_bind : MBind result := fun A B f m =>
  match m with
  | Ok a => f a
  | Raise e => Raise e
  | OutOfFuel => OutOfFuel
  end.

(** A [for] loop whose body may raise: the state after the last iteration, or
    the first exception. *)
Fixpoint for_each {A S} (body : S -> A -> result S) (xs : list A) (s : S)
  : result S :=
  match xs with
  | [] => Ok s
  | x :: xs' => s' ← body s x; for_each body xs' s'
  end.

(** ** Insertion-ordered dictionaries *)

(** A Python [dict] iterates in the order its keys were first inserted, and the
    enumeration below depends on that order, so a dictionary is the list of its
    items in that order. *)
Abbreviation dict K V := (list (K * V)) (only parsing).

Section Dict.
Context {K V : Type} `{EqDecision K}.

Definition keys (d : dict K V) : list K := d.*1.

Fixpoint dict_get (k : K) (d : dict K V) : option V :=
  match d with
  | [] => None
  | (k', v) :: d' => if decide (k = k') then Some v else dict_get k d'
  end.

(** [d[k] = v]: the value of a present key is replaced where it stands, a new
    key goes to the end. *)
Fixpoint dict_set (k : K) (v : V) (d : dict K V) : dict K V :=
  match d with
  | [] => [(k, v)]
  | (k', v') :: d' =>
      if decide (k = k') then (k, v) :: d' else (k', v') :: dict_set k v d'
  end.
End Dict.

(** ** The order of [str] *)

(** Python compares [str] values code point by code point; on the bytes of a
    UTF-8 string that is the lexicographic order of [String.compare]. *)
Definition str_le (a b : string) : Prop := String.leb a b = true.

Global Instance str_le_dec : RelDecision str_le.
Proof. intros a b. unfold str_le. apply _. Defined.

(** [sorted(xs)] on a list of [str]. *)
Definition sorted (xs : list string) : list string := merge_sort str_le xs.

(** [itertools.combinations(xs, 2)]: the pairs of positions [i < j], in
    lexicographic order of the positions. *)
Fixpoint combinations2 {A} (xs : list A) : list (A * A) :=
  match xs with
  | [] => []
  | x :: xs' => (pair x <$> xs') ++ combinations2 xs'
  end.

(** ** [networkx.Graph] *)

Abbreviation node := string (only parsing).

(** An attribute dictionary of the notebook holds at most the key ['weight']:
    [Some w] when it is set, [None] when the dictionary has no such key. *)
Abbreviation attrs := (option Z) (only parsing).

(** The data dictionary of an edge is one Python object, reachable from both
    endpoints: [G._adj[u][v] is G._adj[v][u]].  The adjacency therefore holds
    references into the store [edata]. *)
Abbreviation ref := nat (only parsing).

(** [G._node[n]] and [G._adj[n]], which [networkx] creates together and never
    separately, are the two fields of the entry of [n]. *)
Record entry : Type := Entry {
  node_attrs : attrs;
  adj : dict node ref
}.

Record Graph : Type := MkGraph {
  entries : dict node entry;
  edata : list attrs
}.

(** [nx.Graph()] *)
Definition empty_graph : Graph := MkGraph [] [].

(** [G.nodes()], iterated *)
Definition nodes (G : Graph) : list node := keys (entries G).

(** [n in G] *)
Definition has_node (G : Graph) (n : node) : bool :=
  bool_decide (is_Some (dict_get n (entries G))).

(** [G.nodes[n]] *)
Definition nodes_getitem (G : Graph) (n : node) : result attrs :=
  match dict_get n (entries G) with
  | Some e => Ok (node_attrs e)
  | None => Raise KeyError
  end.

(** [G.neighbors(n)], iterated: [networkx] turns the [KeyError] of [_adj[n]]
    into a [NetworkXError]. *)
Definition neighbors (G : Graph) (n : node) : result (list node) :=
  match dict_get n (entries G) with
  | Some e => Ok (keys (adj e))
  | None => Raise NetworkXError
  end.

(** [G.has_edge(u, v)]: [v in G._adj[u]], and [False] on a [KeyError]. *)
Definition has_edge (G : Graph) (u v : node) : bool :=
  match dict_get u (entries G) with
  | Some e => bool_decide (is_Some (dict_get v (adj e)))
  | None => false
  end.

(** The reference behind [G[u][v]]. *)
Definition edge_ref (G : Graph) (u v : node) : result ref :=
  match dict_get u (entries G) with
  | Some e =>
      match dict_get v (adj e) with
      | Some r => Ok r
      | None => Raise KeyError
      end
  | None => Raise KeyError
  end.

(** [G[u][v]] *)
Definition getitem2 (G : Graph) (u v : node) : result attrs :=
  r ← edge_ref G u v;
  match edata G !! r with
  | Some a => Ok a
  | None => Raise KeyError
  end.

(** [d.get('weight', 0)] *)
Definition get_weight (a : attrs) : Z := default 0 a.

(** [d['weight']] *)
Definition getitem_weight (a : attrs) : result Z :=
  match a with
  | Some w => Ok w
  | None => Raise KeyError
  end.

(** The first lines of [add_node] and [add_edge]: a node that is not in
    [_node] gets an empty adjacency and an empty attribute dictionary. *)
Definition ensure_node (n : node) (es : dict node entry) : dict node entry :=
  match dict_get n es with
  | Some _ => es
  | None => dict_set n (Entry None []) es
  end.

(** [G.add_node(n, weight=w)] *)
Definition add_node (G : Graph) (n : node) (w : Z) : Graph :=
  let add e := Entry (Some w) (adj e) in
  let es := ensure_node n (entries G) in
  MkGraph (dict_set n (add (default (Entry None []) (dict_get n es))) es)
          (edata G).

(** [_adj[u][v] = datadict] *)
Definition set_adj (u v : node) (r : ref) (es : dict node entry)
  : dict node entry :=
  match dict_get u es with
  | Some e => dict_set u (Entry (node_attrs e) (dict_set v r (adj e))) es
  | None => es
  end.

(** [G.add_edge(u, v, weight=w)]:
    [datadict = _adj[u].get(v, {}); datadict.update(weight=w);
     _adj[u][v] = datadict; _adj[v][u] = datadict]. *)
Definition add_edge (G : Graph) (u v : node) (w : Z) : Graph :=
  let es := ensure_node v (ensure_node u (entries G)) in
  let old := e ← dict_get u es; dict_get v (adj e) in
  let r := default (length (edata G)) old in
  let store :=
    match old with
    | Some _ => <[r := Some w]> (edata G)
    | None => edata G ++ [Some w]
    end in
  MkGraph (set_adj v u r (set_adj u v r es)) store.

(** [G[u][v]['weight'] += 1] *)
Definition incr_weight (G : Graph) (u v : node) : result Graph :=
  r ← edge_ref G u v;
  match edata G !! r with
  | Some a =>
      w ← getitem_weight a;
      Ok (MkGraph (entries G) (<[r := Some (w + 1)]> (edata G)))
  | None => Raise KeyError
  end.

(** ** Scoring and selection *)

Abbreviation group := (list node) (only parsing).

(** [sum(G.nodes[node].get('weight', 0) for node in group)] *)
Definition node_sum (G : Graph) (g : group) : result Z :=
  for_each (fun acc n => a ← nodes_getitem G n; Ok (acc + get_weight a)) g 0.

(** The loop over [itertools.combinations(group, 2)] of
    [compute_group_score]. *)
Definition edge_sum (G : Graph) (g : group) : result Z :=
  for_each
    (fun acc '(u, v) =>
       if has_edge G u v
       then a ← getitem2 G u v; Ok (acc + get_weight a)
       else Ok acc)
    (combinations2 g) 0.

Definition compute_group_score (G : Graph) (g : group) : result Z :=
  ns ← node_sum G g;
  es ← edge_sum G g;
  Ok (ns + es).

(** The state of the loop of [find_max_group]: [(best_group, best_score)],
    both [None] before the first group. *)
Abbreviation best := (option group * option Z)%type (only parsing).

Definition find_max_step (G : Graph) (b : best) (g : group) : result best :=
  score ← compute_group_score G g;
  match b.2 with
  | None => Ok (Some g, Some score)
  | Some best_score =>
      if bool_decide (score > best_score) then Ok (Some g, Some score)
      else Ok b
  end.

Definition find_max_group (G : Graph) (groups : list group) : result best :=
  for_each (find_max_step G) groups (None, None).

(** [[path for path in path_library if query_node in path]] *)
Definition query_paths_with_node (path_library : list group)
    (query_node : node) : list group :=
  filter (fun path => query_node ∈ path) path_library.

(** ** Path enumeration *)

(** The variables the nested [dfs] closes over or mutates: the two
    accumulators of [precompute_unique_paths] and the list [path], which every
    call appends to and pops from in place. *)
Record dfs_state : Type := DfsState {
  all_paths : list group;
  unique_paths : gset (list node);
  path : list node
}.

(** The branch [len(path) == desired_length] of [dfs]. *)
Definition visit (s : dfs_state) : dfs_state :=
  let sorted_path := sorted (path s) in
  if decide (sorted_path ∈ unique_paths s) then s
  else DfsState (all_paths s ++ [path s])
                ({[sorted_path]} ∪ unique_paths s)
                (path s).

Definition path_append (n : node) (s : dfs_state) : dfs_state :=
  DfsState (all_paths s) (unique_paths s) (path s ++ [n]).

Definition path_pop (s : dfs_state) : dfs_state :=
  DfsState (all_paths s) (unique_paths s) (removelast (path s)).

(** [dfs(current, path)].  [fuel] bounds the depth of the recursion; a
    simple path has no more nodes than the graph, so the number of nodes is
    always enough ([dfs_walks]).  The recursion limit of the interpreter is not
    part of the model. *)
Fixpoint dfs (fuel : nat) (G : Graph) (desired_length : Z) (current : node)
    (s : dfs_state) : result dfs_state :=
  match fuel with
  | O => OutOfFuel
  | S fuel' =>
      if bool_decide (Z.of_nat (length (path s)) = desired_length)
      then Ok (visit s)
      else
        nbrs ← neighbors G current;
        for_each
          (fun s neighbor =>
             if decide (neighbor ∈ path s) then Ok s
             else
               s' ← dfs fuel' G desired_length neighbor (path_append neighbor s);
               Ok (path_pop s'))
          nbrs s
  end.

Definition precompute_unique_paths (G : Graph) (desired_length : Z)
  : result (list group) :=
  s ← for_each
        (fun s n =>
           s' ← dfs (length (nodes G)) G desired_length n
                  (DfsState (all_paths s) (unique_paths s) [n]);
           Ok s')
        (nodes G) (DfsState [] ∅ []);
  Ok (all_paths s).

(** ** Building the graph from the roster table *)

(** A row of [nba_champions_rosters.xlsx]. *)
Record row : Type := Row {
  Season : string;
  Team : string;
  Player : string
}.

Global Instance row_eq_dec : EqDecision row.
Proof. solve_decision. Defined.

Abbreviation group_key := (string * string)%type (only parsing).

Definition row_key (r : row) : group_key := (Season r, Team r).

(** The number of times [x] occurs in [xs]. *)
Definition occurrences {A} `{EqDecision A} (x : A) (xs : list A) : nat :=
  length (filter (x =.) xs).

(** [df['Player'].value_counts().to_dict()]: one item per distinct player, with
    the number of rows that name the player, the larger counts first.  How
    [pandas] orders equal counts is left to this sort; nothing below depends
    on it. *)
Definition count_ge (a b : string * Z) : Prop := b.2 <= a.2.

Global Instance count_ge_dec : RelDecision count_ge.
Proof. intros a b. unfold count_ge. apply _. Defined.

Definition value_counts (xs : list string) : dict string Z :=
  merge_sort count_ge
    ((fun x => (x, Z.of_nat (occurrences x xs))) <$> remove_dups xs).

(** The order of the tuples [(Season, Team)]. *)
Definition key_le (a b : group_key) : Prop :=
  if decide (a.1 = b.1) then str_le a.2 b.2 else str_le a.1 b.1.

Global Instance key_le_dec : RelDecision key_le.
Proof. intros a b. unfold key_le. destruct (decide (a.1 = b.1)); apply _. Defined.

(** [df.groupby(["Season", "Team"])], iterated: the distinct keys in ascending
    order, each with its rows in the order of the table. *)
Definition groupby (df : list row) : list (group_key * list row) :=
  (fun k => (k, filter (fun r => row_key r = k) df))
    <$> merge_sort key_le (remove_dups (row_key <$> df)).

(** The body of the loop over the pairs of teammates. *)
Definition add_pair (G : Graph) (p : node * node) : result Graph :=
  let '(player1, player2) := p in
  if has_edge G player1 player2
  then incr_weight G player1 player2
  else Ok (add_edge G player1 player2 1).

Definition add_roster (G : Graph) (g : group_key * list row) : result Graph :=
  let players := Player <$> g.2 in
  for_each add_pair (combinations2 (sorted players)) G.

(** The cells from [player_championships = ...] to the loop over [grouped]. *)
Definition build_graph (df : list row) : result Graph :=
  let player_championships := value_counts (Player <$> df) in
  let G0 :=
    foldl (fun G '(player, count) => add_node G player count)
          empty_graph player_championships in
  for_each add_roster (groupby df) G0.

(** ** The five-node scenario *)

Definition scenario : Graph :=
  let G := foldl (fun G '(n, w) => add_node G n w) empty_graph
             [("A", 3); ("B", 2); ("C", 2); ("D", 1); ("E", 1)] in
  foldl (fun G '(u, v, w) => add_edge G u v w) G
    [("A", "B", 2); ("A", "C", 1); ("B", "C", 1); ("C", "D", 1);
     ("D", "E", 1)].

(** ** What the properties are stated with *)

Fixpoint Zsum (zs : list Z) : Z :=
  match zs with
  | [] => 0
  | z :: zs' => z + Zsum zs'
  end.

(** The weight of a node, [0] when it has none. *)
Definition node_weight (G : Graph) (n : node) : Z :=
  match nodes_getitem G n with
  | Ok a => get_weight a
  | _ => 0
  end.

(** The weight of the edge between [u] and [v]; a pair without an edge
    contributes [0]. *)
Definition pair_weight (G : Graph) (u v : node) : Z :=
  if has_edge G u v then
    match getitem2 G u v with
    | Ok a => get_weight a
    | _ => 0
    end
  else 0.

(** The sum of [f u v] over the members [u] at position [i] and [v] at position
    [j] of the group, for all positions [i < j]: every unordered pair of
    positions once. *)
Definition pair_sum (f : node -> node -> Z) (g : group) : Z :=
  Zsum (imap (fun i u =>
          Zsum (imap (fun j v => if decide (i < j)%nat then f u v else 0) g)) g).

(** The score as the specification words it. *)
Definition group_score_spec (G : Graph) (g : group) : Z :=
  Zsum (node_weight G <$> g) + pair_sum (pair_weight G) g.

(** Two groups have the same member set. *)
Definition same_members (p q : group) : Prop := forall n, n ∈ p <-> n ∈ q.

(** A simple path of the graph: nodes of the graph, none twice, each adjacent
    to the next. *)
Fixpoint chain (G : Graph) (p : list node) : Prop :=
  match p with
  | [] => True
  | u :: p' =>
      match p' with
      | [] => True
      | v :: _ => has_edge G u v = true
      end /\ chain G p'
  end.

Definition simple_path (G : Graph) (p : list node) : Prop :=
  p <> [] /\ Forall (fun n => n ∈ nodes G) p /\ NoDup p /\ chain G p.

(** ** Well-formed graphs and their edges *)

(** What [networkx] keeps true of a [Graph]: no node and no neighbour is listed
    twice, the two directions of an edge hold the same data dictionary, which
    exists, and different edges hold different ones. *)
Record graph_wf (G : Graph) : Prop := GraphWf {
  wf_nodes : NoDup (nodes G);
  wf_adj : forall u e, dict_get u (entries G) = Some e -> NoDup (keys (adj e));
  wf_sym : forall u v r, edge_ref G u v = Ok r ->
             edge_ref G v u = Ok r /\ (r < length (edata G))%nat;
  wf_sep : forall u v u' v' r, edge_ref G u v = Ok r -> edge_ref G u' v' = Ok r ->
             (u = u' /\ v = v') \/ (u = v' /\ v = u')
}.

(** The reference stored for [v] in the adjacency of [u]. *)
Definition eref (es : dict node entry) (u v : node) : option ref :=
  e ← dict_get u es; dict_get v (adj e).

(** [u, v] are the endpoints [a, b], in either order. *)
Definition same_pair (a b u v : node) : Prop :=
  (u = a /\ v = b) \/ (u = b /\ v = a).

Global Instance same_pair_dec a b u v : Decision (same_pair a b u v).
Proof. unfold same_pair. apply _. Defined.

(** The data dictionary [add_edge] writes to: the one of the edge when there is
    one, a new one otherwise. *)
Definition add_edge_ref (G : Graph) (a b : node) : ref :=
  default (length (edata G)) (eref (entries G) a b).

(** Every edge data dictionary has a ['weight']. *)
Definition weighted (G : Graph) : Prop := Forall is_Some (edata G).

(** [G[u][v]['weight']] *)
Definition edge_weight (G : Graph) (u v : node) : result Z :=
  a ← getitem2 G u v; getitem_weight a.

(** The nodes in the order of [G.nodes()], each with its neighbours in the
    order of [G.neighbors]. *)
Definition iteration_order (G : Graph) : list (node * list node) :=
  (fun ne => (ne.1, keys (adj ne.2))) <$> entries G.

(** ** The result of the selection loop *)

(** What [(best_group, best_score)] is after the loop of [find_max_group] has
    run over [groups]: nothing before the first group; afterwards a group of
    the sequence with its score, which no group exceeds and no earlier group
    reaches. *)
Definition best_of (G : Graph) (groups : list group) (b : best) : Prop :=
  match b with
  | (None, None) => groups = []
  | (Some g, Some s) =>
      exists i, groups !! i = Some g /\ compute_group_score G g = Ok s /\
        forall j g', groups !! j = Some g' ->
          exists s', compute_group_score G g' = Ok s' /\ s' <= s /\
                     ((j < i)%nat -> s' < s)
  | _ => False
  end.

(** ** What the enumeration visits and records *)

(** The paths of [desired_length] nodes that [dfs(current, path)] reaches, in
    the order in which it reaches them. *)
Fixpoint walks (fuel : nat) (G : Graph) (desired_length : Z) (current : node)
    (p : list node) : list (list node) :=
  match fuel with
  | O => []
  | S fuel' =>
      if bool_decide (Z.of_nat (length p) = desired_length) then [p]
      else
        match neighbors G current with
        | Ok nbrs =>
            neighbor ← nbrs;
            if decide (neighbor ∈ p) then []
            else walks fuel' G desired_length neighbor (p ++ [neighbor])
        | _ => []
        end
  end.

(** All of them, over the starting nodes. *)
Definition all_walks (G : Graph) (desired_length : Z) : list (list node) :=
  n ← nodes G; walks (length (nodes G)) G desired_length n [n].

(** The two accumulators, and what reaching a path does to them. *)
Abbreviation accs := (list (list node) * gset (list node))%type (only parsing).

Definition record (a : accs) (p : list node) : accs :=
  if decide (sorted p ∈ a.2) then a
  else (a.1 ++ [p], {[sorted p]} ∪ a.2).

Definition with_path (a : accs) (p : list node) : dfs_state :=
  DfsState a.1 a.2 p.

Definition accs_of (s : dfs_state) : accs := (all_paths s, unique_paths s).

(** [unique_paths] holds the sorted forms of the paths in [all_paths], which
    are pairwise different. *)
Definition accs_inv (a : accs) : Prop :=
  NoDup (sorted <$> a.1) /\ forall x, x ∈ a.2 <-> x ∈ sorted <$> a.1.

(** ** The steps of the construction *)

(** What one iteration of the loop over the pairs does: it cannot raise, the
    nodes stay as they are, and the weight between the two players, in either
    direction, grows by one. *)
Record pair_added (G G' : Graph) (a b : node) : Prop := PairAdded {
  pa_wf : graph_wf G';
  pa_weighted : weighted G';
  pa_nodes : nodes G' = nodes G;
  pa_attrs : forall n, n ∈ nodes G -> nodes_getitem G' n = nodes_getitem G n;
  pa_edge : forall u v,
    has_edge G' u v = has_edge G u v || bool_decide (same_pair a b u v);
  pa_weight : forall u v,
    pair_weight G' u v
    = pair_weight G u v + (if decide (same_pair a b u v) then 1 else 0)
}.

(** The number of pairs of [ps] whose members are [u] and [v], in either
    order. *)
Definition pair_count (u v : node) (ps : list (node * node)) : nat :=
  length (filter (fun p => same_pair p.1 p.2 u v) ps).

Record pairs_added (G G' : Graph) (ps : list (node * node)) : Prop := PairsAdded {
  ps_wf : graph_wf G';
  ps_weighted : weighted G';
  ps_nodes : nodes G' = nodes G;
  ps_attrs : forall n, n ∈ nodes G -> nodes_getitem G' n = nodes_getitem G n;
  ps_edge : forall u v,
    has_edge G' u v = has_edge G u v || bool_decide (0 < pair_count u v ps)%nat;
  ps_weight : forall u v,
    pair_weight G' u v = pair_weight G u v + Z.of_nat (pair_count u v ps)
}.

(** The pairs of one roster, and of all of them in the order of the loop. *)
Definition roster_pairs (g : group_key * list row) : list (node * node) :=
  combinations2 (sorted (Player <$> g.2)).

Definition all_pairs (df : list row) : list (node * node) :=
  groupby df ≫= roster_pairs.

(** The graph with its nodes, before the loop over [grouped]. *)
Definition initial_graph (df : list row) : Graph :=
  foldl (fun G '(player, count) => add_node G player count)
        empty_graph (value_counts (Player <$> df)).

(** The graph after [add_node] on the items of a dictionary. *)
Record nodes_added (d : dict node Z) (G : Graph) : Prop := NodesAdded {
  na_wf : graph_wf G;
  na_weighted : weighted G;
  na_nodes : nodes G = keys d;
  na_attrs : forall n,
    nodes_getitem G n
    = match dict_get n d with Some w => Ok (Some w) | None => Raise KeyError end;
  na_edges : forall u v, eref (entries G) u v = None
}.

(** The rows that name a player, the distinct rosters they belong to, and the
    distinct rosters that name both of two players. *)
Definition rows_naming (df : list row) (p : string) : list row :=
  filter (fun r => Player r = p) df.

Definition groups_of (df : list row) (p : string) : list group_key :=
  remove_dups (row_key <$> rows_naming df p).

Definition co_groups (df : list row) (u v : string) : list group_key :=
  filter (fun k => k ∈ groups_of df v) (groups_of df u).

(** The graph that [build_graph] returns, in terms of the table. *)
Record built (df : list row) (G : Graph) : Prop := Built {
  b_wf : graph_wf G;
  b_weighted : weighted G;
  b_nodes : nodes G ≡ₚ remove_dups (Player <$> df);
  b_attrs : forall p, p ∈ Player <$> df ->
    nodes_getitem G p = Ok (Some (Z.of_nat (length (rows_naming df p))));
  b_edge : forall u v,
    has_edge G u v = bool_decide (0 < pair_count u v (all_pairs df))%nat;
  b_weight : forall u v,
    pair_weight G u v = Z.of_nat (pair_count u v (all_pairs df))
}.

(** ** Example graphs and tables *)

(** The scenario with other weights: every node 1, every edge 5. *)
Definition scenario_reweighted : Graph :=
  let G := foldl (fun G n => add_node G n 1) empty_graph
             ["A"; "B"; "C"; "D"; "E"] in
  foldl (fun G '(u, v) => add_edge G u v 5) G
    [("A", "B"); ("A", "C"); ("B", "C"); ("C", "D"); ("D", "E")].

(** Two rosters without a repeated row. *)
Definition clean_rows : list row :=
  [Row "2022-23" "Denver Nuggets" "A"; Row "2022-23" "Denver Nuggets" "B";
   Row "2023-24" "Boston Celtics" "A"; Row "2023-24" "Boston Celtics" "B";
   Row "2023-24" "Boston Celtics" "C"].

(** One roster that lists the player A twice. *)
Definition repeated_rows : list row :=
  [Row "2023-24" "Boston Celtics" "A"; Row "2023-24" "Boston Celtics" "A";
   Row "2023-24" "Boston Celtics" "B"].


(** ** The data collection notebook *)

(** [s.split(sep)] for a separator of one character: the pieces between the
    occurrences of the separator, one more than there are occurrences. *)
Fixpoint split (sep : ascii) (s : string) : list string :=
  match s with
  | EmptyString => [EmptyString]
  | String c s' =>
      if decide (c = sep) then EmptyString :: split sep s'
      else
        match split sep s' with
        | part :: parts => String c part :: parts
        | [] => [String c EmptyString]
        end
  end.

(** The white space that [int] skips around an ASCII numeral: the control
    characters 9 to 13 and 28 to 31, and the space. *)
Definition is_space (c : ascii) : bool :=
  let n := N_of_ascii c in
  (((9 <=? n) && (n <=? 13)) || ((28 <=? n) && (n <=? 32)))%N.

Fixpoint lstrip (s : string) : string :=
  match s with
  | EmptyString => EmptyString
  | String c s' => if is_space c then lstrip s' else s
  end.

Fixpoint rstrip (s : string) : string :=
  match s with
  | EmptyString => EmptyString
  | String c s' =>
      match rstrip s' with
      | EmptyString => if is_space c then EmptyString else String c EmptyString
      | r => String c r
      end
  end.

Definition digit_value (c : ascii) : option Z :=
  let n := Z.of_N (N_of_ascii c) in
  if bool_decide (48 <= n <= 57) then Some (n - 48) else None.

(** The digits after the first: an underscore is accepted between two digits
    and nowhere else. *)
Fixpoint digits_from (acc : Z) (after_underscore : bool) (s : string)
  : option Z :=
  match s with
  | EmptyString => if after_underscore then None else Some acc
  | String c s' =>
      if decide (c = "_"%char)
      then if after_underscore then None else digits_from acc true s'
      else d ← digit_value c; digits_from (acc * 10 + d) false s'
  end.

Definition parse_digits (s : string) : option Z :=
  match s with
  | EmptyString => None
  | String c s' => d ← digit_value c; digits_from d false s'
  end.

(** [int(s)] on a [str] of ASCII characters, [None] for its [ValueError]:
    white space around, an optional sign, decimal digits.  Python accepts the
    decimal digits and the white space of other scripts as well; on such a
    string this function answers [None].  Recent interpreters also refuse a
    numeral of more than 4300 digits, which is not modelled: the properties
    of numerals below are stated for at most 4300 digits. *)
Definition py_int (s : string) : option Z :=
  match lstrip (rstrip s) with
  | EmptyString => None
  | String c r =>
      if decide (c = "+"%char) then parse_digits r
      else if decide (c = "-"%char) then Z.opp <$> parse_digits r
      else parse_digits (String c r)
  end.

(** [get_year_from_season(season_str)]; the [except] branch returns [None]
    as well. *)
Definition get_year_from_season (season_str : string) : option Z :=
  let parts := split "-" season_str in
  if decide (length parts <> 2%nat) then None
  else
    match py_int (default EmptyString (parts !! 1%nat)) with
    | Some end_year =>
        Some (if bool_decide (end_year < 50) then end_year + 2000
              else end_year + 1900)
    | None => None
    end.





(** The loop over [seasons_teams].  [fetch_roster] reads the network; it is a
    parameter here, a function of the state of the world [W] that answers
    with the list of players and the next state. *)
Section Crawl.
Context {W : Type} (fetch_roster : string -> Z -> W -> list string * W).


End Crawl.

(** ** What the further properties are stated with *)

(** The number of rows of the roster [k] that name the player [p]. *)
Definition named_in (df : list row) (k : group_key) (p : string) : nat :=
  length (filter (fun r => row_key r = k /\ Player r = p) df).

(** Over all rosters, the number of ways to take a row that names [u] and a
    row of the same roster that names [v]. *)
Definition pairings (df : list row) (u v : string) : nat :=
  sum_list_with (fun k => named_in df k u * named_in df k v)%nat
                (remove_dups (row_key <$> df)).

(** The number of occurrences of a character in a string. *)
Fixpoint count_char (c : ascii) (s : string) : nat :=
  match s with
  | EmptyString => 0
  | String c' s' => (if decide (c' = c) then 1 else 0) + count_char c s'
  end.

(** A string of the digits [0] to [9], and the number it writes in base 10. *)
Fixpoint all_digits (s : string) : Prop :=
  match s with
  | EmptyString => True
  | String c s' => is_Some (digit_value c) /\ all_digits s'
  end.

Fixpoint decimal_from (acc : Z) (s : string) : Z :=
  match s with
  | EmptyString => acc
  | String c s' => decimal_from (acc * 10 + default 0 (digit_value c)) s'
  end.

Definition decimal (s : string) : Z := decimal_from 0 s.

(** * Properties *)

(** ** The order of [str] is a total order *)

Lemma ascii_compare_eq a b : Ascii.compare a b = Eq -> a = b.
Proof. apply Ascii.compare_eq_iff. Qed.

Lemma string_compare_lt_trans s1 s2 s3 :
  String.compare s1 s2 = Lt -> String.compare s2 s3 = Lt ->
  String.compare s1 s3 = Lt.
Proof.
  revert s2 s3. induction s1 as [|a s1 IH]; intros [|b s2] [|c s3]; simpl;
    try done.
  destruct (Ascii.compare a b) eqn:Hab; try done;
    destruct (Ascii.compare b c) eqn:Hbc; try done.
  - apply ascii_compare_eq in Hab as ->. apply ascii_compare_eq in Hbc as ->.
    unfold Ascii.compare. rewrite N.compare_refl. apply IH.
  - apply ascii_compare_eq in Hab as ->. by rewrite Hbc.
  - apply ascii_compare_eq in Hbc as <-. by rewrite Hab.
  - intros _ _. unfold Ascii.compare in *.
    apply N.compare_lt_iff in Hab. apply N.compare_lt_iff in Hbc.
    assert (N_of_ascii a < N_of_ascii c)%N as H by (etrans; eassumption).
    apply N.compare_lt_iff in H. by rewrite H.
Qed.

Global Instance str_le_total : Total str_le.
Proof. intros a b. apply String.leb_total. Qed.

Global Instance str_le_antisymm : AntiSymm (=) str_le.
Proof. intros a b. apply String.leb_antisym. Qed.

Global Instance str_le_trans : Transitive str_le.
Proof.
  intros a b c. unfold str_le, String.leb.
  destruct (String.compare a b) eqn:Hab; try done;
    destruct (String.compare b c) eqn:Hbc; try done; intros _ _.
  - apply String.compare_eq_iff in Hab as ->. by rewrite Hbc.
  - apply String.compare_eq_iff in Hab as ->. by rewrite Hbc.
  - apply String.compare_eq_iff in Hbc as <-. by rewrite Hab.
  - by rewrite (string_compare_lt_trans _ _ _ Hab Hbc).
Qed.

Lemma sorted_Permutation xs : sorted xs ≡ₚ xs.
Proof. apply merge_sort_Permutation. Qed.

Lemma sorted_Sorted xs : Sorted str_le (sorted xs).
Proof. apply (Sorted_merge_sort str_le). Qed.

(** Two lists have the same sorted form exactly when one is a rearrangement of
    the other. *)
Lemma sorted_eq_iff xs ys : sorted xs = sorted ys <-> xs ≡ₚ ys.
Proof.
  split.
  - intros H. rewrite <-(sorted_Permutation xs), H. apply sorted_Permutation.
  - intros H. apply (Sorted_unique str_le); try apply sorted_Sorted.
    by rewrite !sorted_Permutation.
Qed.

(** ** Dictionaries *)

Section DictFacts.
Context {K V : Type} `{EqDecision K}.
Implicit Types (d : dict K V) (k : K) (v : V).

Lemma dict_get_None d k : dict_get k d = None <-> k ∉ keys d.
Proof.
  induction d as [|[k' v'] d IH]; simpl.
  - split; [intros _; apply not_elem_of_nil|done].
  - rewrite not_elem_of_cons. destruct (decide (k = k')); naive_solver.
Qed.

Lemma dict_get_is_Some d k : is_Some (dict_get k d) <-> k ∈ keys d.
Proof.
  rewrite <-not_eq_None_Some, dict_get_None.
  destruct (decide (k ∈ keys d)); naive_solver.
Qed.

Lemma dict_get_elem d k v : NoDup (keys d) -> (k, v) ∈ d -> dict_get k d = Some v.
Proof.
  induction d as [|[k' v'] d IH]; simpl; [by intros _ ?%elem_of_nil|].
  intros [Hk Hd]%NoDup_cons [[= -> ->]|Hin]%elem_of_cons; simplify_eq/=.
  - by rewrite decide_True.
  - destruct (decide (k = k')) as [->|]; [|auto].
    destruct Hk. apply list_elem_of_fmap. by exists (k', v).
Qed.

Lemma dict_get_set d k k' v :
  dict_get k' (dict_set k v d) = if decide (k' = k) then Some v else dict_get k' d.
Proof.
  induction d as [|[k0 v0] d IH]; simpl.
  - destruct (decide (k' = k)); done.
  - destruct (decide (k = k0)) as [->|]; simpl.
    + destruct (decide (k' = k0)); done.
    + destruct (decide (k' = k0)) as [->|]; [by rewrite decide_False|done].
Qed.

Lemma keys_dict_set d k v :
  keys (dict_set k v d) =
    if dict_get k d is Some _ then keys d else keys d ++ [k].
Proof.
  unfold keys. induction d as [|[k0 v0] d IH]; csimpl; [done|].
  destruct (decide (k = k0)) as [->|]; csimpl; [done|].
  rewrite IH. by destruct (dict_get k d).
Qed.

Lemma NoDup_keys_dict_set d k v : NoDup (keys d) -> NoDup (keys (dict_set k v d)).
Proof.
  intros Hd. rewrite keys_dict_set. destruct (dict_get k d) eqn:Hk; [done|].
  apply NoDup_app. split_and!; [done| |apply NoDup_singleton].
  intros x Hx ->%list_elem_of_singleton. by apply dict_get_None in Hk.
Qed.
End DictFacts.

(** ** Loops *)

Lemma for_each_app {A S} (body : S -> A -> result S) xs ys s :
  for_each body (xs ++ ys) s = (s' ← for_each body xs s; for_each body ys s').
Proof.
  revert s. induction xs as [|x xs IH]; intros s; simpl; [done|].
  destruct (body s x); simpl; auto.
Qed.

(** ** Well-formed graphs *)

Lemma elem_of_nodes G n : n ∈ nodes G <-> is_Some (dict_get n (entries G)).
Proof. unfold nodes. by rewrite dict_get_is_Some. Qed.

Lemma has_node_true G n : has_node G n = true <-> n ∈ nodes G.
Proof. unfold has_node. by rewrite bool_decide_eq_true, elem_of_nodes. Qed.

Lemma has_edge_edge_ref G u v : has_edge G u v = true <-> exists r, edge_ref G u v = Ok r.
Proof.
  unfold has_edge, edge_ref. destruct (dict_get u (entries G)) as [e|].
  - rewrite bool_decide_eq_true. destruct (dict_get v (adj e)); split;
      try (intros [? ?]); try done; eauto.
  - split; [done|by intros [? ?]].
Qed.

Lemma edge_ref_nodes G u v r : edge_ref G u v = Ok r -> u ∈ nodes G.
Proof.
  unfold edge_ref. rewrite elem_of_nodes.
  destruct (dict_get u (entries G)); [eauto|done].
Qed.

Lemma neighbors_Ok G u nbrs :
  neighbors G u = Ok nbrs -> forall v, v ∈ nbrs <-> has_edge G u v = true.
Proof.
  unfold neighbors, has_edge. destruct (dict_get u (entries G)) as [e|]; [|done].
  intros [= <-] v. by rewrite bool_decide_eq_true, dict_get_is_Some.
Qed.

Lemma neighbors_is_Ok G u : u ∈ nodes G -> exists nbrs, neighbors G u = Ok nbrs.
Proof.
  rewrite elem_of_nodes. unfold neighbors. intros [e ->]. eauto.
Qed.

Lemma has_edge_sym G u v : graph_wf G -> has_edge G u v = has_edge G v u.
Proof.
  intros HG. apply eq_true_iff_eq. rewrite !has_edge_edge_ref.
  split; intros [r Hr]; exists r; by apply (wf_sym G HG).
Qed.

Lemma has_edge_nodes G u v :
  graph_wf G -> has_edge G u v = true -> u ∈ nodes G /\ v ∈ nodes G.
Proof.
  intros HG H. split.
  - apply has_edge_edge_ref in H as [r Hr]. by eapply edge_ref_nodes.
  - rewrite has_edge_sym in H by done.
    apply has_edge_edge_ref in H as [r Hr]. by eapply edge_ref_nodes.
Qed.

Lemma getitem2_Ok G u v :
  graph_wf G -> has_edge G u v = true -> exists a, getitem2 G u v = Ok a.
Proof.
  intros HG [r Hr]%has_edge_edge_ref. unfold getitem2. rewrite Hr. cbn.
  destruct (wf_sym G HG _ _ _ Hr) as [_ Hlt].
  destruct (lookup_lt_is_Some_2 (edata G) r Hlt) as [a ->]. eauto.
Qed.

Lemma getitem2_sym G u v : graph_wf G -> getitem2 G u v = getitem2 G v u.
Proof.
  intros HG. unfold getitem2.
  destruct (edge_ref G u v) as [r|e|] eqn:Huv.
  - by rewrite (proj1 (wf_sym G HG _ _ _ Huv)).
  - destruct (edge_ref G v u) as [r|e'|] eqn:Hvu.
    + by rewrite (proj1 (wf_sym G HG _ _ _ Hvu)) in Huv.
    + unfold edge_ref in *. repeat case_match; naive_solver.
    + unfold edge_ref in *. repeat case_match; naive_solver.
  - unfold edge_ref in *. repeat case_match; naive_solver.
Qed.

(** ** Scoring *)

Lemma Zsum_app xs ys : Zsum (xs ++ ys) = Zsum xs + Zsum ys.
Proof. induction xs as [|x xs IH]; simpl; lia. Qed.

Lemma node_weight_Ok G n : n ∈ nodes G ->
  exists a, nodes_getitem G n = Ok a /\ node_weight G n = get_weight a.
Proof.
  rewrite elem_of_nodes. unfold node_weight, nodes_getitem.
  intros [e ->]. eauto.
Qed.

Lemma node_sum_acc G g acc :
  Forall (fun n => n ∈ nodes G) g ->
  for_each (fun acc n => a ← nodes_getitem G n; Ok (acc + get_weight a)) g acc
  = Ok (acc + Zsum (node_weight G <$> g)).
Proof.
  intros Hg. revert acc. induction Hg as [|n g Hn Hg IH]; intros acc; csimpl.
  - f_equal; lia.
  - destruct (node_weight_Ok G n Hn) as (a & -> & ->). cbn.
    rewrite IH. f_equal; lia.
Qed.

Lemma node_sum_absent G g acc :
  Exists (fun n => n ∉ nodes G) g ->
  for_each (fun acc n => a ← nodes_getitem G n; Ok (acc + get_weight a)) g acc
  = Raise KeyError.
Proof.
  intros Hg. revert acc. induction Hg as [n g Hn|n g Hg IH]; intros acc; csimpl.
  - rewrite elem_of_nodes, <-eq_None_not_Some in Hn.
    unfold nodes_getitem. by rewrite Hn.
  - destruct (nodes_getitem G n) as [a|e|] eqn:E; cbn; [apply IH| |];
      unfold nodes_getitem in E; destruct (dict_get n (entries G)); by simplify_eq.
Qed.

Lemma pair_weight_Ok G u v :
  graph_wf G -> has_edge G u v = true ->
  exists a, getitem2 G u v = Ok a /\ pair_weight G u v = get_weight a.
Proof.
  intros HG Huv. destruct (getitem2_Ok G u v HG Huv) as [a Ha].
  exists a. unfold pair_weight. by rewrite Huv, Ha.
Qed.

Lemma pair_weight_no_edge G u v : has_edge G u v = false -> pair_weight G u v = 0.
Proof. unfold pair_weight. by intros ->. Qed.

Lemma pair_weight_sym G u v : graph_wf G -> pair_weight G u v = pair_weight G v u.
Proof.
  intros HG. unfold pair_weight.
  by rewrite (has_edge_sym G u v HG), (getitem2_sym G u v HG).
Qed.

Lemma edge_sum_acc G (ps : list (node * node)) acc :
  graph_wf G ->
  for_each
    (fun acc '(u, v) =>
       if has_edge G u v
       then a ← getitem2 G u v; Ok (acc + get_weight a)
       else Ok acc) ps acc
  = Ok (acc + Zsum ((fun p => pair_weight G p.1 p.2) <$> ps)).
Proof.
  intros HG. revert acc. induction ps as [|[u v] ps IH]; intros acc; csimpl.
  - f_equal; lia.
  - destruct (has_edge G u v) eqn:Huv.
    + destruct (pair_weight_Ok G u v HG Huv) as (a & -> & ->). cbn.
      rewrite IH. f_equal; lia.
    + rewrite (pair_weight_no_edge G u v Huv). cbn. rewrite IH. f_equal; lia.
Qed.

(** The pairs of [itertools.combinations] are the pairs of positions
    [i < j]. *)
Lemma pair_sum_cons f x g :
  pair_sum f (x :: g) = Zsum (f x <$> g) + pair_sum f g.
Proof.
  unfold pair_sum. simpl. f_equal.
  - rewrite (imap_ext _ (const (f x)) g); [by rewrite imap_const|].
    intros j v _. simpl. destruct (decide (0 < S j)%nat); done || lia.
  - f_equal. apply imap_ext. intros i u _. simpl. rewrite Z.add_0_l. f_equal.
    apply imap_ext. intros j v _. simpl.
    destruct (decide (i < j)%nat), (decide (S i < S j)%nat); done || lia.
Qed.

Lemma combinations2_pair_sum f g :
  Zsum ((fun p => f p.1 p.2) <$> combinations2 g) = pair_sum f g.
Proof.
  induction g as [|x g IH]; [done|]. simpl combinations2.
  rewrite fmap_app, Zsum_app, IH, pair_sum_cons. f_equal.
  by rewrite <-list_fmap_compose.
Qed.

Lemma compute_group_score_Ok G g :
  graph_wf G -> Forall (fun n => n ∈ nodes G) g ->
  compute_group_score G g = Ok (group_score_spec G g).
Proof.
  intros HG Hg. unfold compute_group_score, node_sum, edge_sum.
  rewrite node_sum_acc by done. cbn. rewrite edge_sum_acc by done. cbn.
  unfold group_score_spec. by rewrite combinations2_pair_sum.
Qed.

Lemma compute_group_score_absent G g :
  Exists (fun n => n ∉ nodes G) g -> compute_group_score G g = Raise KeyError.
Proof.
  intros Hg. unfold compute_group_score, node_sum.
  by rewrite node_sum_absent.
Qed.

(** ** Selection *)

Lemma find_max_group_snoc G groups g :
  find_max_group G (groups ++ [g])
  = (b ← find_max_group G groups; find_max_step G b g).
Proof.
  unfold find_max_group. rewrite for_each_app. simpl.
  destruct (for_each _ groups _) as [b| |]; cbn; [|done..].
  by destruct (find_max_step G b g).
Qed.

Lemma best_of_step G groups b g s :
  best_of G groups b -> compute_group_score G g = Ok s ->
  exists b', find_max_step G b g = Ok b' /\ best_of G (groups ++ [g]) b'.
Proof.
  intros Hb Hs. unfold find_max_step. rewrite Hs. cbn.
  destruct b as [[g0|] [s0|]]; simpl in *; try done.
  - destruct Hb as (i & Hi & Hs0 & Hmax).
    assert (i < length groups)%nat as Hlt by (by eapply lookup_lt_Some).
    case_bool_decide as Hgt.
    + eexists; split; [done|]. exists (length groups). split_and!.
      * by rewrite list_lookup_middle.
      * done.
      * intros j g' [Hj|[-> [= <-]]]%lookup_snoc_Some.
        -- destruct (Hmax j g' (proj2 Hj)) as (s' & ? & ? & ?).
           exists s'. split_and!; [done|lia|lia].
        -- exists s. split_and!; [done|lia|lia].
    + eexists; split; [done|]. exists i. split_and!.
      * by rewrite lookup_app_l.
      * done.
      * intros j g' [Hj|[-> [= <-]]]%lookup_snoc_Some.
        -- apply Hmax, Hj.
        -- exists s. split_and!; [done|lia|lia].
  - subst groups. eexists; split; [done|]. exists 0%nat. split_and!; try done.
    intros [|[|j]] g'; simpl; intros [= <-].
    exists s. split_and!; [done|lia|lia].
Qed.

Lemma find_max_group_best G groups :
  Forall (fun g => exists s, compute_group_score G g = Ok s) groups ->
  exists b, find_max_group G groups = Ok b /\ best_of G groups b.
Proof.
  induction groups as [|g groups IH] using rev_ind; intros Hg.
  - by exists (None, None).
  - apply Forall_app in Hg as [Hgs [[s Hs] _]%Forall_cons].
    destruct (IH Hgs) as (b & Hb & Hbest).
    rewrite find_max_group_snoc, Hb. cbn. by eapply best_of_step.
Qed.

(** [find_max_group] returns only if every group could be scored. *)
Lemma find_max_group_scored G groups b :
  find_max_group G groups = Ok b ->
  Forall (fun g => exists s, compute_group_score G g = Ok s) groups.
Proof.
  revert b. induction groups as [|g groups IH] using rev_ind; intros b; [done|].
  rewrite find_max_group_snoc.
  destruct (find_max_group G groups) as [b0| |] eqn:Hb0; cbn; [|done..].
  intros Hstep. apply Forall_app. split; [by eapply IH|].
  apply Forall_singleton. unfold find_max_step in Hstep.
  destruct (compute_group_score G g); [eauto|done..].
Qed.

Lemma scorable G groups :
  graph_wf G -> Forall (Forall (fun n => n ∈ nodes G)) groups ->
  Forall (fun g => exists s, compute_group_score G g = Ok s) groups.
Proof.
  intros HG Hgs. eapply Forall_impl; [exact Hgs|]. intros g Hg.
  eexists. by apply compute_group_score_Ok.
Qed.

(** ** The graph operations keep the graph well-formed *)

Lemma edge_ref_eref G u v r : edge_ref G u v = Ok r <-> eref (entries G) u v = Some r.
Proof.
  unfold edge_ref, eref. destruct (dict_get u (entries G)) as [e|]; simpl.
  - destruct (dict_get v (adj e)); naive_solver.
  - naive_solver.
Qed.

Lemma has_edge_eref G u v : has_edge G u v = true <-> is_Some (eref (entries G) u v).
Proof.
  rewrite has_edge_edge_ref. unfold is_Some.
  by setoid_rewrite edge_ref_eref.
Qed.

Lemma dict_get_ensure_node m es n :
  dict_get n (ensure_node m es)
  = match dict_get n es with
    | Some e => Some e
    | None => if decide (n = m) then Some (Entry None []) else None
    end.
Proof.
  unfold ensure_node. destruct (dict_get m es) as [e|] eqn:Hm.
  - destruct (dict_get n es) eqn:Hn; [done|].
    destruct (decide (n = m)) as [->|]; [congruence|done].
  - rewrite dict_get_set. destruct (decide (n = m)) as [->|].
    + by rewrite Hm.
    + by destruct (dict_get n es).
Qed.

Lemma keys_ensure_node m es :
  keys (ensure_node m es) = if dict_get m es is Some _ then keys es else keys es ++ [m].
Proof.
  unfold ensure_node. destruct (dict_get m es) eqn:Hm; [done|].
  by rewrite keys_dict_set, Hm.
Qed.

Lemma NoDup_keys_ensure_node m es : NoDup (keys es) -> NoDup (keys (ensure_node m es)).
Proof.
  unfold ensure_node. destruct (dict_get m es); [done|].
  apply NoDup_keys_dict_set.
Qed.

Lemma ensure_node_present m es : is_Some (dict_get m (ensure_node m es)).
Proof.
  rewrite dict_get_ensure_node. destruct (dict_get m es); [done|].
  by rewrite decide_True.
Qed.

Lemma eref_ensure_node m es u v : eref (ensure_node m es) u v = eref es u v.
Proof.
  unfold eref. rewrite dict_get_ensure_node.
  destruct (dict_get u es); [done|]. by destruct (decide (u = m)).
Qed.

Lemma dict_get_set_adj a b r es n :
  dict_get n (set_adj a b r es)
  = if decide (n = a)
    then (fun e => Entry (node_attrs e) (dict_set b r (adj e))) <$> dict_get a es
    else dict_get n es.
Proof.
  unfold set_adj. destruct (dict_get a es) as [e|] eqn:Ha.
  - rewrite dict_get_set. by destruct (decide (n = a)).
  - destruct (decide (n = a)) as [->|]; [by rewrite Ha|done].
Qed.

Lemma keys_set_adj a b r es : keys (set_adj a b r es) = keys es.
Proof.
  unfold set_adj. destruct (dict_get a es) as [e|] eqn:Ha; [|done].
  by rewrite keys_dict_set, Ha.
Qed.

Lemma eref_set_adj a b r es u v :
  is_Some (dict_get a es) ->
  eref (set_adj a b r es) u v
  = if decide (u = a /\ v = b) then Some r else eref es u v.
Proof.
  intros [e Ha]. unfold eref. rewrite dict_get_set_adj.
  destruct (decide (u = a)) as [->|].
  - rewrite Ha. simpl. rewrite dict_get_set.
    destruct (decide (v = b)) as [->|].
    + by rewrite decide_True.
    + by rewrite decide_False by naive_solver.
  - by rewrite decide_False by naive_solver.
Qed.

Lemma adj_NoDup_set_adj a b r es :
  (forall u e, dict_get u es = Some e -> NoDup (keys (adj e))) ->
  forall u e, dict_get u (set_adj a b r es) = Some e -> NoDup (keys (adj e)).
Proof.
  intros Hes u e. rewrite dict_get_set_adj.
  destruct (decide (u = a)) as [->|]; [|apply Hes].
  destruct (dict_get a es) as [e0|] eqn:Ha; [|done].
  intros [= <-]. simpl. apply NoDup_keys_dict_set. by eapply Hes.
Qed.

Lemma adj_NoDup_ensure_node m es :
  (forall u e, dict_get u es = Some e -> NoDup (keys (adj e))) ->
  forall u e, dict_get u (ensure_node m es) = Some e -> NoDup (keys (adj e)).
Proof.
  intros Hes u e. rewrite dict_get_ensure_node.
  destruct (dict_get u es) as [e0|] eqn:Hu.
  - intros [= <-]. by eapply Hes.
  - destruct (decide (u = m)); [|done]. intros [= <-]. apply NoDup_nil_2.
Qed.

Lemma empty_graph_wf : graph_wf empty_graph.
Proof. split; try done. apply NoDup_nil_2. Qed.

Lemma nodes_add_node G n w :
  nodes (add_node G n w) = if has_node G n then nodes G else nodes G ++ [n].
Proof.
  unfold add_node, nodes, has_node. simpl.
  rewrite keys_dict_set, keys_ensure_node.
  destruct (ensure_node_present n (entries G)) as [e ->].
  destruct (dict_get n (entries G)) eqn:Hn.
  - by rewrite bool_decide_true.
  - by rewrite bool_decide_false by (by intros [? ?]).
Qed.

Lemma dict_get_add_node G n w m :
  dict_get m (entries (add_node G n w))
  = if decide (m = n)
    then Some (Entry (Some w) (default [] (adj <$> dict_get n (entries G))))
    else dict_get m (entries G).
Proof.
  unfold add_node. simpl. rewrite dict_get_set, !dict_get_ensure_node.
  destruct (decide (m = n)) as [->|].
  - destruct (dict_get n (entries G)); simpl; [done|]. by rewrite decide_True.
  - by destruct (dict_get m (entries G)).
Qed.

Lemma eref_add_node G n w u v :
  eref (entries (add_node G n w)) u v = eref (entries G) u v.
Proof.
  unfold eref. rewrite dict_get_add_node.
  destruct (decide (u = n)) as [->|]; [|done].
  by destruct (dict_get n (entries G)).
Qed.

Lemma add_node_wf G n w : graph_wf G -> graph_wf (add_node G n w).
Proof.
  intros [Hn Ha Hsym Hsep]. split.
  - rewrite nodes_add_node. destruct (has_node G n) eqn:Hin; [done|].
    apply NoDup_app. split_and!; [done| |apply NoDup_singleton].
    intros x Hx ->%list_elem_of_singleton.
    apply has_node_true in Hx. congruence.
  - intros u e. rewrite dict_get_add_node.
    destruct (decide (u = n)) as [->|]; [|apply Ha].
    intros [= <-]. simpl. destruct (dict_get n (entries G)) as [e|] eqn:He.
    + by eapply Ha.
    + apply NoDup_nil_2.
  - intros u v r. rewrite !edge_ref_eref, !eref_add_node, <-!edge_ref_eref.
    apply Hsym.
  - intros u v u' v' r. rewrite !edge_ref_eref, !eref_add_node, <-!edge_ref_eref.
    apply Hsep.
Qed.

Lemma is_Some_dict_get_set_adj a b r es n :
  is_Some (dict_get n (set_adj a b r es)) <-> is_Some (dict_get n es).
Proof. by rewrite !dict_get_is_Some, keys_set_adj. Qed.

Lemma is_Some_dict_get_ensure_node m es n :
  is_Some (dict_get n es) -> is_Some (dict_get n (ensure_node m es)).
Proof. rewrite dict_get_ensure_node. by intros [e ->]. Qed.

Lemma eref_add_edge G a b w u v :
  eref (entries (add_edge G a b w)) u v
  = if decide (same_pair a b u v) then Some (add_edge_ref G a b)
    else eref (entries G) u v.
Proof.
  unfold add_edge. simpl.
  set (es := ensure_node b (ensure_node a (entries G))).
  assert (is_Some (dict_get a es)) as Ha
    by apply is_Some_dict_get_ensure_node, ensure_node_present.
  assert (is_Some (dict_get b es)) as Hb by apply ensure_node_present.
  assert ((e ← dict_get a es; dict_get b (adj e)) = eref (entries G) a b) as ->.
  { change (eref es a b = eref (entries G) a b).
    unfold es. by rewrite !eref_ensure_node. }
  rewrite eref_set_adj by (by apply is_Some_dict_get_set_adj).
  rewrite eref_set_adj by done.
  unfold es. rewrite !eref_ensure_node. unfold add_edge_ref, same_pair.
  repeat case_decide; naive_solver.
Qed.

Lemma edata_add_edge G a b w :
  edata (add_edge G a b w)
  = match eref (entries G) a b with
    | Some r => <[r := Some w]> (edata G)
    | None => edata G ++ [Some w]
    end.
Proof.
  unfold add_edge. simpl.
  assert ((e ← dict_get a (ensure_node b (ensure_node a (entries G)));
           dict_get b (adj e)) = eref (entries G) a b) as ->.
  { change (eref (ensure_node b (ensure_node a (entries G))) a b
            = eref (entries G) a b).
    by rewrite !eref_ensure_node. }
  by destruct (eref (entries G) a b).
Qed.

Lemma nodes_add_edge G a b w :
  a ∈ nodes G -> b ∈ nodes G -> nodes (add_edge G a b w) = nodes G.
Proof.
  rewrite !elem_of_nodes. intros [ea Ha] [eb Hb]. unfold add_edge, nodes. simpl.
  rewrite !keys_set_adj. unfold ensure_node. by rewrite Ha, Hb.
Qed.

Lemma node_attrs_add_edge G a b w n :
  n ∈ nodes G -> nodes_getitem (add_edge G a b w) n = nodes_getitem G n.
Proof.
  rewrite elem_of_nodes. intros [e Hn]. unfold nodes_getitem, add_edge. simpl.
  rewrite !dict_get_set_adj.
  assert (forall m, dict_get n (ensure_node m (ensure_node a (entries G))) = Some e)
    as Hens.
  { intros m. by rewrite !dict_get_ensure_node, Hn. }
  destruct (decide (n = b)) as [->|]; [|destruct (decide (n = a)) as [->|]].
  - destruct (decide (b = a)) as [->|]; by rewrite ?Hens, ?Hn.
  - by rewrite Hens, Hn.
  - by rewrite Hens, Hn.
Qed.

Lemma add_edge_ref_lt G a b w :
  graph_wf G -> (add_edge_ref G a b < length (edata (add_edge G a b w)))%nat.
Proof.
  intros HG. rewrite edata_add_edge. unfold add_edge_ref.
  destruct (eref (entries G) a b) as [r|] eqn:Hr; simpl.
  - rewrite length_insert. by apply edge_ref_eref, (wf_sym G HG) in Hr as [_ ?].
  - rewrite length_app. simpl. lia.
Qed.

Lemma length_edata_add_edge G a b w :
  (length (edata G) <= length (edata (add_edge G a b w)))%nat.
Proof.
  rewrite edata_add_edge. destruct (eref (entries G) a b).
  - by rewrite length_insert.
  - rewrite length_app. lia.
Qed.

Lemma add_edge_wf G a b w : graph_wf G -> graph_wf (add_edge G a b w).
Proof.
  intros HG. pose proof HG as [Hn Ha Hsym Hsep]. split.
  - unfold add_edge, nodes. simpl. rewrite !keys_set_adj.
    by do 2 apply NoDup_keys_ensure_node.
  - unfold add_edge. simpl. do 2 apply adj_NoDup_set_adj.
    by do 2 apply adj_NoDup_ensure_node.
  - intros u v r. rewrite !edge_ref_eref, !eref_add_edge.
    destruct (decide (same_pair a b u v)) as [Huv|Huv].
    + intros [= <-]. rewrite decide_True by (unfold same_pair in *; naive_solver).
      split; [done|]. by apply add_edge_ref_lt.
    + rewrite decide_False by (unfold same_pair in *; naive_solver).
      intros Hr. apply edge_ref_eref, Hsym in Hr as [Hr Hlt].
      split; [by apply edge_ref_eref|].
      pose proof (length_edata_add_edge G a b w). lia.
  - intros u v u' v' r. rewrite !edge_ref_eref, !eref_add_edge.
    assert (forall x y, eref (entries G) x y = Some (add_edge_ref G a b) ->
                        same_pair a b x y) as Hold.
    { intros x y Hxy. unfold add_edge_ref in Hxy.
      destruct (eref (entries G) a b) as [r0|] eqn:Hab; simpl in Hxy.
      - apply edge_ref_eref in Hxy, Hab.
        destruct (Hsep _ _ _ _ _ Hab Hxy); unfold same_pair; naive_solver.
      - apply edge_ref_eref, Hsym in Hxy as [_ ?]. lia. }
    destruct (decide (same_pair a b u v)) as [Huv|Huv];
      destruct (decide (same_pair a b u' v')) as [Huv'|Huv'].
    + intros _ _. unfold same_pair in *. naive_solver.
    + intros [= <-] ?%Hold. done.
    + intros Hr [= <-]. by apply Hold in Hr.
    + rewrite <-!edge_ref_eref. apply Hsep.
Qed.

(** ** Path enumeration: what [dfs] visits *)

Lemma visit_record s : visit s = with_path (record (accs_of s) (path s)) (path s).
Proof.
  unfold visit, record, with_path, accs_of. destruct s as [a u p]. simpl.
  by destruct (decide (sorted p ∈ u)).
Qed.

Lemma removelast_snoc {A} (l : list A) x : removelast (l ++ [x]) = l.
Proof. apply removelast_last. Qed.

Lemma path_pop_with_path a p v : path_pop (with_path a (p ++ [v])) = with_path a p.
Proof. unfold path_pop, with_path. simpl. by rewrite removelast_snoc. Qed.

Lemma accs_of_with_path a p : accs_of (with_path a p) = a.
Proof. by destruct a. Qed.

Lemma length_NoDup_subseteq (p l : list node) :
  NoDup p -> p ⊆ l -> (length p <= length l)%nat.
Proof. intros Hp Hpl. apply submseteq_length. by apply NoDup_submseteq. Qed.

(** [dfs] does not raise and does not run out of fuel on a well-formed graph;
    it records the paths of [walks] one after the other and hands [path] back
    as it received it. *)
Lemma dfs_walks fuel G k current s :
  graph_wf G -> current ∈ nodes G ->
  NoDup (path s) -> path s ⊆ nodes G ->
  (length (nodes G) < fuel + length (path s))%nat ->
  dfs fuel G k current s
  = Ok (with_path (foldl record (accs_of s) (walks fuel G k current (path s)))
                  (path s)).
Proof.
  intros HG. revert current s.
  induction fuel as [|fuel IH]; intros current s Hcur Hnd Hsub Hfuel.
  { pose proof (length_NoDup_subseteq _ _ Hnd Hsub). lia. }
  simpl. case_bool_decide as Hlen.
  { by rewrite visit_record. }
  destruct (neighbors_is_Ok G current Hcur) as [nbrs Hnbrs]. rewrite Hnbrs. cbn.
  assert (Forall (fun v => v ∈ nodes G) nbrs) as Hin.
  { apply Forall_forall. intros v Hv.
    apply (neighbors_Ok _ _ _ Hnbrs) in Hv. by apply (has_edge_nodes G current v). }
  clear Hnbrs. revert s Hnd Hsub Hfuel Hlen.
  induction Hin as [|v nbrs Hv Hin IHn]; intros s Hnd Hsub Hfuel Hlen.
  { simpl. by destruct s. }
  simpl. destruct (decide (v ∈ path s)) as [Hvp|Hvp]; cbn.
  { apply IHn; done. }
  rewrite IH; simpl; first last.
  { rewrite length_app. simpl. lia. }
  { intros x [?|Hx%list_elem_of_singleton]%elem_of_app; subst; auto. }
  { apply NoDup_app. split_and!; [done| |apply NoDup_singleton].
    by intros x ? ->%list_elem_of_singleton. }
  { done. }
  cbn. rewrite path_pop_with_path.
  change (accs_of (path_append v s)) with (accs_of s).
  set (a := foldl record _ (walks fuel G k v _)).
  rewrite (IHn (with_path a (path s))); simpl; try done.
  by rewrite accs_of_with_path, foldl_app.
Qed.

Lemma precompute_loop G k ns a p :
  graph_wf G -> Forall (fun n => n ∈ nodes G) ns ->
  for_each
    (fun s n =>
       s' ← dfs (length (nodes G)) G k n
              (DfsState (all_paths s) (unique_paths s) [n]);
       Ok s')
    ns (with_path a p)
  = Ok (with_path
          (foldl record a (n ← ns; walks (length (nodes G)) G k n [n]))
          (if ns is [] then p else [default "" (last ns)])).
Proof.
  intros HG Hns. revert a p.
  induction Hns as [|n ns Hn Hns IH]; intros a p; [done|].
  cbn [for_each]. rewrite dfs_walks; simpl; try done.
  - cbn. change (DfsState ?x ?y ?z) with (with_path (x, y) z). rewrite IH.
    rewrite foldl_app. do 2 f_equal.
    + by destruct a.
    + destruct Hns; [done|]. by rewrite last_cons_cons.
  - apply NoDup_singleton.
  - by intros x ->%list_elem_of_singleton.
  - pose proof (wf_nodes G HG). lia.
Qed.

(** The library is what recording all the walks, in order, leaves in
    [all_paths]. *)
Lemma precompute_unique_paths_walks G k :
  graph_wf G ->
  precompute_unique_paths G k = Ok (foldl record ([], ∅) (all_walks G k)).1.
Proof.
  intros HG. unfold precompute_unique_paths, all_walks.
  change (DfsState [] ∅ []) with (with_path ([], ∅) []).
  rewrite precompute_loop; [done..|]. by apply Forall_forall.
Qed.

(** ** The walks are the simple paths *)

Lemma chain_nodes G u p :
  graph_wf G -> u ∈ nodes G -> chain G (u :: p) -> Forall (fun n => n ∈ nodes G) p.
Proof.
  intros HG. revert u. induction p as [|v p IH]; intros u Hu; [done|].
  intros [Huv Hp]. apply (has_edge_nodes G u v HG) in Huv as [_ Hv].
  constructor; [done|]. by apply (IH v).
Qed.

Lemma walks_sound fuel G k current p q :
  graph_wf G -> q ∈ walks fuel G k current p ->
  exists suffix, q = p ++ suffix /\ Z.of_nat (length q) = k /\
    chain G (current :: suffix) /\ (NoDup p -> NoDup q).
Proof.
  intros HG. revert current p.
  induction fuel as [|fuel IH]; intros current p; simpl; [by intros ?%elem_of_nil|].
  case_bool_decide as Hlen.
  { intros ->%list_elem_of_singleton. exists []. by rewrite app_nil_r. }
  destruct (neighbors G current) as [nbrs| |] eqn:Hnbrs;
    [|by intros ?%elem_of_nil..].
  intros (v & Hq & Hv)%list_elem_of_bind.
  destruct (decide (v ∈ p)) as [|Hvp]; [by apply elem_of_nil in Hq|].
  apply IH in Hq as (suffix & -> & Hk & Hch & Hnd).
  exists (v :: suffix). split_and!.
  - by rewrite <-app_assoc.
  - done.
  - by apply (neighbors_Ok _ _ _ Hnbrs).
  - done.
  - intros Hp. apply Hnd, NoDup_app. split_and!; [done| |apply NoDup_singleton].
    by intros x ? ->%list_elem_of_singleton.
Qed.

Lemma walks_complete fuel G k current p suffix :
  graph_wf G -> current ∈ nodes G -> p ⊆ nodes G ->
  (length (nodes G) < fuel + length p)%nat ->
  Z.of_nat (length (p ++ suffix)) = k ->
  chain G (current :: suffix) -> NoDup (p ++ suffix) ->
  p ++ suffix ∈ walks fuel G k current p.
Proof.
  intros HG. revert current p suffix.
  induction fuel as [|fuel IH]; intros current p suffix Hcur Hsub Hfuel Hk Hch Hnd.
  { apply NoDup_app in Hnd as (Hp & _ & _).
    pose proof (length_NoDup_subseteq _ _ Hp Hsub). lia. }
  simpl. case_bool_decide as Hlen.
  { rewrite length_app in Hk. destruct suffix; simpl in *; [|lia].
    rewrite app_nil_r. by apply list_elem_of_singleton. }
  destruct suffix as [|v suffix]; [by rewrite app_nil_r in Hk|].
  destruct Hch as [Huv Hch].
  destruct (neighbors_is_Ok G current Hcur) as [nbrs Hnbrs]. rewrite Hnbrs.
  apply list_elem_of_bind. exists v. split; [|by apply (neighbors_Ok _ _ _ Hnbrs)].
  rewrite decide_False.
  2:{ apply NoDup_app in Hnd as (_ & Hnd & _). intros Hv.
      apply (Hnd v Hv). by left. }
  rewrite (cons_middle v p suffix), app_assoc in Hk, Hnd |- *.
  apply (has_edge_nodes G current v HG) in Huv as [_ Hv].
  apply IH; try done.
  - intros x [?|Hx%list_elem_of_singleton]%elem_of_app; subst; auto.
  - rewrite length_app. simpl. lia.
Qed.

(** The paths reached from the starting nodes are the simple paths of
    [desired_length] nodes, each as often as it is one. *)
Lemma elem_of_all_walks G k q :
  graph_wf G ->
  q ∈ all_walks G k <-> simple_path G q /\ Z.of_nat (length q) = k.
Proof.
  intros HG. unfold all_walks, simple_path. rewrite list_elem_of_bind. split.
  - intros (n & Hq & Hn).
    apply walks_sound in Hq as (suffix & -> & Hk & Hch & Hnd); [|done].
    split_and!; try done.
    + constructor; [done|]. by eapply chain_nodes.
    + apply Hnd, NoDup_singleton.
  - intros [(Hne & Hin & Hnd & Hch) Hk]. destruct q as [|n suffix]; [done|].
    apply Forall_cons in Hin as [Hn Hin]. exists n. split; [|done].
    apply (walks_complete _ _ _ _ [n]); simpl; try done.
    + by intros x ->%list_elem_of_singleton.
    + pose proof (wf_nodes G HG). lia.
Qed.

(** ** Recording with deduplication *)

Lemma record_inv a p : accs_inv a -> accs_inv (record a p).
Proof.
  intros [Hnd Hseen]. unfold record.
  destruct (decide (sorted p ∈ a.2)) as [Hin|Hin]; [done|].
  split; simpl.
  - rewrite fmap_app. apply NoDup_app. split_and!; [done| |apply NoDup_singleton].
    intros x Hx ->%list_elem_of_singleton. by apply Hin, Hseen.
  - intros x. rewrite fmap_app, elem_of_app, elem_of_union, elem_of_singleton.
    simpl. rewrite list_elem_of_singleton, Hseen. naive_solver.
Qed.

Lemma foldl_record_inv a ws : accs_inv a -> accs_inv (foldl record a ws).
Proof.
  revert a. induction ws as [|w ws IH]; intros a Ha; simpl; [done|].
  by apply IH, record_inv.
Qed.

Lemma foldl_record_sub a ws p :
  p ∈ (foldl record a ws).1 -> p ∈ a.1 \/ p ∈ ws.
Proof.
  revert a. induction ws as [|w ws IH]; intros a; simpl; [auto|].
  intros [Hp|Hp]%IH; [|right; by right].
  unfold record in Hp. destruct (decide (sorted w ∈ a.2)); [auto|].
  simpl in Hp. apply elem_of_app in Hp as [?|Hp%list_elem_of_singleton]; [auto|].
  subst. right; by left.
Qed.

Lemma foldl_record_mono a ws x : x ∈ a.2 -> x ∈ (foldl record a ws).2.
Proof.
  revert a. induction ws as [|w ws IH]; intros a Hx; simpl; [done|].
  apply IH. unfold record. destruct (decide (sorted w ∈ a.2)); [done|].
  simpl. set_solver.
Qed.

Lemma foldl_record_seen a ws w : w ∈ ws -> sorted w ∈ (foldl record a ws).2.
Proof.
  revert a. induction ws as [|w' ws IH]; intros a; [by intros ?%elem_of_nil|].
  intros [Heq|Hw]%elem_of_cons; simpl; [subst w'|by apply IH].
  apply foldl_record_mono. unfold record.
  destruct (decide (sorted w ∈ a.2)); [done|]. simpl. set_solver.
Qed.


Lemma accs_inv_empty : accs_inv ([], ∅).
Proof. split; simpl; [apply NoDup_nil_2|set_solver]. Qed.

(** Groups without repeated members have the same members exactly when their
    sorted forms agree. *)
Lemma same_members_sorted p q :
  NoDup p -> NoDup q -> same_members p q <-> sorted p = sorted q.
Proof.
  intros Hp Hq. rewrite sorted_eq_iff. split.
  - by apply NoDup_Permutation.
  - intros Hpq n. by rewrite Hpq.
Qed.

(** ** Enumeration depends on the iteration orders alone *)

Lemma for_each_ext {A S} (f g : S -> A -> result S) xs s :
  (forall s x, x ∈ xs -> f s x = g s x) -> for_each f xs s = for_each g xs s.
Proof.
  revert s. induction xs as [|x xs IH]; intros s Hfg; simpl; [done|].
  rewrite Hfg by left. destruct (g s x); simpl; try done.
  apply IH. intros; apply Hfg. by right.
Qed.

Lemma dfs_ext fuel G G' k current s :
  (forall n, neighbors G n = neighbors G' n) ->
  dfs fuel G k current s = dfs fuel G' k current s.
Proof.
  intros Hnb. revert current s.
  induction fuel as [|fuel IH]; intros current s; simpl; [done|].
  case_bool_decide; [done|]. rewrite <-Hnb.
  destruct (neighbors G current); cbn; try done.
  apply for_each_ext. intros s' v _. by rewrite IH.
Qed.

(** ** Adding a pair of teammates *)

Lemma pair_weight_eref G u v :
  pair_weight G u v
  = match eref (entries G) u v with
    | Some r => default 0 (mjoin (edata G !! r))
    | None => 0
    end.
Proof.
  unfold pair_weight, getitem2.
  destruct (eref (entries G) u v) as [r|] eqn:Hr.
  - assert (has_edge G u v = true) as -> by (apply has_edge_eref; eauto).
    apply edge_ref_eref in Hr as ->. cbn. by destruct (edata G !! r).
  - destruct (has_edge G u v) eqn:He; [|done].
    apply has_edge_eref in He as [? ?]. congruence.
Qed.

Lemma has_edge_eref_bool G u v :
  has_edge G u v = bool_decide (is_Some (eref (entries G) u v)).
Proof.
  apply eq_true_iff_eq. by rewrite has_edge_eref, bool_decide_eq_true.
Qed.

Lemma eref_same_pair G a b u v r :
  graph_wf G -> eref (entries G) a b = Some r ->
  eref (entries G) u v = Some r <-> same_pair a b u v.
Proof.
  intros HG Hab. split.
  - intros Huv. apply edge_ref_eref in Hab, Huv.
    destruct (wf_sep G HG _ _ _ _ _ Hab Huv); unfold same_pair; naive_solver.
  - intros [[-> ->]|[-> ->]]; [done|].
    apply edge_ref_eref. by apply edge_ref_eref, (wf_sym G HG) in Hab as [? _].
Qed.

Lemma incr_weight_spec G a b :
  graph_wf G -> weighted G -> has_edge G a b = true ->
  exists G', incr_weight G a b = Ok G' /\ pair_added G G' a b.
Proof.
  intros HG HW [r Hr]%has_edge_edge_ref.
  destruct (wf_sym G HG _ _ _ Hr) as [_ Hlt].
  destruct (lookup_lt_is_Some_2 _ _ Hlt) as [x Hx].
  destruct (proj1 (Forall_lookup _ _) HW _ _ Hx) as [w ->].
  unfold incr_weight. rewrite Hr. cbn. rewrite Hx. cbn.
  eexists; split; [done|]. apply edge_ref_eref in Hr.
  split; simpl; try done.
  - destruct HG as [H1 H2 H3 H4]. split; try done.
    intros u v r'. unfold edge_ref at 1 2. simpl. rewrite length_insert.
    apply H3.
  - unfold weighted. simpl.
    apply Forall_insert; [done|eauto].
  - intros u v. rewrite !has_edge_eref_bool. simpl.
    destruct (decide (same_pair a b u v)) as [Hsp|Hsp].
    + rewrite (bool_decide_true (same_pair _ _ _ _)) by done.
      rewrite orb_true_r. apply bool_decide_eq_true.
      exists r. by apply (eref_same_pair G a b).
    + rewrite (bool_decide_false (same_pair _ _ _ _)) by done.
      by rewrite orb_false_r.
  - intros u v. rewrite !pair_weight_eref. simpl.
    destruct (eref (entries G) u v) as [r'|] eqn:Huv.
    + destruct (decide (same_pair a b u v)) as [Hsp|Hsp].
      * apply (eref_same_pair G a b u v r HG Hr) in Hsp.
        assert (r' = r) as -> by congruence.
        by rewrite list_lookup_insert_eq, Hx by done.
      * rewrite list_lookup_insert_ne; [lia|].
        intros <-. by apply Hsp, (eref_same_pair G a b u v r).
    + rewrite decide_False; [done|].
      intros Hsp. apply (eref_same_pair G a b u v r HG Hr) in Hsp. congruence.
Qed.

Lemma add_edge_spec G a b :
  graph_wf G -> weighted G -> a ∈ nodes G -> b ∈ nodes G ->
  has_edge G a b = false ->
  pair_added G (add_edge G a b 1) a b.
Proof.
  intros HG HW Ha Hb Hab.
  assert (eref (entries G) a b = None) as Hnone.
  { apply eq_None_not_Some. intros ?%has_edge_eref. congruence. }
  assert (forall u v, same_pair a b u v -> eref (entries G) u v = None) as Hsp.
  { intros u v [[-> ->]|[-> ->]]; [done|].
    apply eq_None_not_Some. intros ?%has_edge_eref.
    rewrite has_edge_sym in Hab by done. congruence. }
  assert (edata (add_edge G a b 1) = edata G ++ [Some 1]) as Hdata
    by (by rewrite edata_add_edge, Hnone).
  assert (add_edge_ref G a b = length (edata G)) as Href
    by (unfold add_edge_ref; by rewrite Hnone).
  split.
  - by apply add_edge_wf.
  - unfold weighted. rewrite Hdata. apply Forall_app. split; [done|].
    apply Forall_singleton. eauto.
  - by apply nodes_add_edge.
  - intros n Hn. by apply node_attrs_add_edge.
  - intros u v. rewrite !has_edge_eref_bool, eref_add_edge.
    destruct (decide (same_pair a b u v)) as [Huv|Huv].
    + rewrite (bool_decide_true (same_pair _ _ _ _)) by done.
      rewrite orb_true_r. by apply bool_decide_eq_true.
    + rewrite (bool_decide_false (same_pair _ _ _ _)) by done.
      by rewrite orb_false_r.
  - intros u v. rewrite !pair_weight_eref, eref_add_edge, Hdata, Href.
    destruct (decide (same_pair a b u v)) as [Huv|Huv].
    + rewrite (Hsp u v Huv), list_lookup_middle by done. done.
    + destruct (eref (entries G) u v) as [r|] eqn:Hr; [|done].
      apply edge_ref_eref, (wf_sym G HG) in Hr as [_ Hlt].
      rewrite lookup_app_l by done. lia.
Qed.

Lemma add_pair_spec G a b :
  graph_wf G -> weighted G -> a ∈ nodes G -> b ∈ nodes G ->
  exists G', add_pair G (a, b) = Ok G' /\ pair_added G G' a b.
Proof.
  intros HG HW Ha Hb. unfold add_pair.
  destruct (has_edge G a b) eqn:Hab.
  - by apply incr_weight_spec.
  - eexists; split; [done|]. by apply add_edge_spec.
Qed.

(** ** Adding all the pairs *)

Lemma pair_count_cons u v a b ps :
  pair_count u v ((a, b) :: ps)
  = ((if decide (same_pair a b u v) then 1 else 0) + pair_count u v ps)%nat.
Proof.
  unfold pair_count. rewrite filter_cons. simpl.
  by destruct (decide (same_pair a b u v)).
Qed.

Lemma pair_count_app u v ps qs :
  pair_count u v (ps ++ qs) = (pair_count u v ps + pair_count u v qs)%nat.
Proof. unfold pair_count. by rewrite filter_app, length_app. Qed.

Lemma add_pairs_spec G ps :
  graph_wf G -> weighted G ->
  Forall (fun p => p.1 ∈ nodes G /\ p.2 ∈ nodes G) ps ->
  exists G', for_each add_pair ps G = Ok G' /\ pairs_added G G' ps.
Proof.
  intros HG HW Hps. revert G HG HW Hps.
  induction ps as [|[a b] ps IH]; intros G HG HW Hps.
  { exists G. split; [done|]. split; try done.
    - intros u v. by rewrite orb_false_r.
    - intros u v. unfold pair_count. simpl. lia. }
  apply Forall_cons in Hps as [[Ha Hb] Hps]. simpl in Ha, Hb.
  destruct (add_pair_spec G a b HG HW Ha Hb) as (G1 & Hstep & H1).
  destruct (IH G1) as (G' & Hrest & H2).
  { apply H1. } { apply H1. }
  { by rewrite (pa_nodes _ _ _ _ H1). }
  exists G'. split.
  { cbn [for_each]. rewrite Hstep. done. }
  split.
  - apply H2.
  - apply H2.
  - by rewrite (ps_nodes _ _ _ H2), (pa_nodes _ _ _ _ H1).
  - intros n Hn. rewrite (ps_attrs _ _ _ H2), (pa_attrs _ _ _ _ H1); try done.
    by rewrite (pa_nodes _ _ _ _ H1).
  - intros u v. rewrite (ps_edge _ _ _ H2), (pa_edge _ _ _ _ H1).
    rewrite pair_count_cons, <-orb_assoc. f_equal.
    apply eq_true_iff_eq. rewrite orb_true_iff, !bool_decide_eq_true.
    destruct (decide (same_pair a b u v)); split.
    + lia.
    + auto.
    + intros [?|?]; [done|lia].
    + intros ?. right. lia.
  - intros u v. rewrite (ps_weight _ _ _ H2), (pa_weight _ _ _ _ H1).
    rewrite pair_count_cons. destruct (decide (same_pair a b u v)); lia.
Qed.

(** Nested loops with the same state are one loop. *)
Lemma for_each_bind {A B S} (f : S -> B -> result S) (h : A -> list B) xs s :
  for_each (fun s x => for_each f (h x) s) xs s = for_each f (xs ≫= h) s.
Proof.
  revert s. induction xs as [|x xs IH]; intros s; [done|].
  cbn [for_each]. rewrite (bind_cons h x xs), for_each_app.
  destruct (for_each f (h x) s); cbn; auto.
Qed.

Lemma build_graph_pairs df :
  build_graph df = for_each add_pair (all_pairs df) (initial_graph df).
Proof. unfold build_graph, all_pairs. apply (for_each_bind add_pair roster_pairs). Qed.

(** ** The nodes and their weights *)

Lemma dict_get_app {K V} `{EqDecision K} (d1 d2 : dict K V) k :
  dict_get k (d1 ++ d2)
  = match dict_get k d1 with Some v => Some v | None => dict_get k d2 end.
Proof.
  induction d1 as [|[k' v'] d1 IH]; simpl; [done|].
  by destruct (decide (k = k')).
Qed.

Lemma add_nodes_spec (d : dict node Z) :
  NoDup (keys d) ->
  nodes_added d (foldl (fun G '(player, count) => add_node G player count)
                       empty_graph d).
Proof.
  induction d as [|[n w] d IH] using rev_ind; intros Hd.
  { split; try done; first [apply empty_graph_wf|apply Forall_nil_2]. }
  unfold keys in Hd. rewrite fmap_app in Hd.
  apply NoDup_app in Hd as (Hd & Hn & _). specialize (IH Hd).
  rewrite foldl_app. simpl. set (G := foldl _ _ d) in *.
  destruct IH as [H1 H2 H3 H4 H5].
  assert (n ∉ nodes G) as HnG.
  { rewrite H3. intros Hin. apply (Hn n Hin). by apply list_elem_of_singleton. }
  split.
  - by apply add_node_wf.
  - done.
  - rewrite nodes_add_node.
    assert (has_node G n = false) as ->.
    { apply not_true_iff_false. by rewrite has_node_true. }
    unfold keys. by rewrite H3, fmap_app.
  - intros m. unfold nodes_getitem. rewrite dict_get_add_node, dict_get_app.
    simpl. destruct (decide (m = n)) as [->|].
    + assert (dict_get n d = None) as ->.
      { apply dict_get_None. by rewrite <-H3. }
      done.
    + specialize (H4 m). unfold nodes_getitem in H4.
      by destruct (dict_get m d).
  - intros u v. by rewrite eref_add_node.
Qed.

Lemma value_counts_Permutation xs :
  value_counts xs
  ≡ₚ (fun x => (x, Z.of_nat (occurrences x xs))) <$> remove_dups xs.
Proof. apply merge_sort_Permutation. Qed.

Lemma keys_value_counts xs : keys (value_counts xs) ≡ₚ remove_dups xs.
Proof.
  unfold keys. rewrite value_counts_Permutation, <-list_fmap_compose.
  by rewrite list_fmap_id.
Qed.

Lemma NoDup_keys_value_counts xs : NoDup (keys (value_counts xs)).
Proof. rewrite keys_value_counts. apply NoDup_remove_dups. Qed.

Lemma dict_get_value_counts xs x :
  x ∈ xs -> dict_get x (value_counts xs) = Some (Z.of_nat (occurrences x xs)).
Proof.
  intros Hx. apply dict_get_elem; [apply NoDup_keys_value_counts|].
  rewrite value_counts_Permutation. apply list_elem_of_fmap.
  exists x. by rewrite elem_of_remove_dups.
Qed.

Lemma initial_graph_spec df :
  nodes_added (value_counts (Player <$> df)) (initial_graph df).
Proof. apply add_nodes_spec, NoDup_keys_value_counts. Qed.

Lemma elem_of_nodes_initial_graph df p :
  p ∈ nodes (initial_graph df) <-> p ∈ Player <$> df.
Proof.
  rewrite (na_nodes _ _ (initial_graph_spec df)), keys_value_counts.
  apply elem_of_remove_dups.
Qed.

(** ** The rosters *)

Lemma elem_of_combinations2 {A} (l : list A) a b :
  (a, b) ∈ combinations2 l -> a ∈ l /\ b ∈ l.
Proof.
  induction l as [|x l IH]; simpl; [by intros ?%elem_of_nil|].
  intros [Hab|Hab]%elem_of_app.
  - apply (list_elem_of_fmap (pair x)) in Hab as (y & Heq & Hy). simplify_eq.
    split; [left|by right].
  - destruct (IH Hab). split; by right.
Qed.

Lemma elem_of_groupby df g :
  g ∈ groupby df
  <-> g.1 ∈ row_key <$> df /\ g.2 = filter (fun r => row_key r = g.1) df.
Proof.
  unfold groupby. rewrite list_elem_of_fmap. split.
  - intros (k & -> & Hk). simpl. split; [|done].
    by rewrite merge_sort_Permutation, elem_of_remove_dups in Hk.
  - intros [Hk Hrows]. exists g.1. split.
    + destruct g; simpl in *; by subst.
    + by rewrite merge_sort_Permutation, elem_of_remove_dups.
Qed.

Lemma keys_groupby df :
  (groupby df).*1 ≡ₚ remove_dups (row_key <$> df).
Proof.
  unfold groupby. rewrite <-list_fmap_compose.
  change (fst ∘ _) with (@id (string * string)%type). rewrite list_fmap_id.
  apply merge_sort_Permutation.
Qed.

Lemma elem_of_roster_pairs df g a b :
  g ∈ groupby df -> (a, b) ∈ roster_pairs g ->
  a ∈ Player <$> df /\ b ∈ Player <$> df.
Proof.
  intros [_ Hrows]%elem_of_groupby Hab.
  apply elem_of_combinations2 in Hab. unfold sorted in Hab.
  rewrite !merge_sort_Permutation, Hrows in Hab.
  assert (forall p, p ∈ Player <$> filter (fun r => row_key r = g.1) df ->
                    p ∈ Player <$> df) as Hsub.
  { intros p (r & -> & Hr)%list_elem_of_fmap.
    apply list_elem_of_filter in Hr as [_ Hr]. by apply list_elem_of_fmap_2. }
  naive_solver.
Qed.

Lemma build_graph_spec df :
  exists G, build_graph df = Ok G /\
    pairs_added (initial_graph df) G (all_pairs df).
Proof.
  rewrite build_graph_pairs.
  destruct (initial_graph_spec df) as [H1 H2 _ _ _].
  apply add_pairs_spec; [done..|].
  apply Forall_forall. intros [a b] (g & Hab & Hg)%list_elem_of_bind. simpl.
  rewrite !elem_of_nodes_initial_graph. by eapply elem_of_roster_pairs.
Qed.

(** ** Counting rosters *)

Lemma filter_fmap {A B} (f : A -> B) (P : B -> Prop) `{forall x, Decision (P x)}
    (l : list A) :
  filter P (f <$> l) = f <$> filter (fun x => P (f x)) l.
Proof.
  induction l as [|x l IH]; csimpl; [done|].
  rewrite !filter_cons. destruct (decide (P (f x))); csimpl; by rewrite IH.
Qed.

Lemma row_eq r1 r2 : row_key r1 = row_key r2 -> Player r1 = Player r2 -> r1 = r2.
Proof. destruct r1, r2. unfold row_key. simpl. by intros [= -> ->] ->. Qed.

Lemma length_remove_dups_NoDup {A} `{EqDecision A} (l : list A) :
  NoDup l -> length (remove_dups l) = length l.
Proof.
  intros Hl. apply Permutation_length, NoDup_Permutation;
    [apply NoDup_remove_dups|done|apply elem_of_remove_dups].
Qed.

Lemma occurrences_Player df p :
  occurrences p (Player <$> df) = length (rows_naming df p).
Proof.
  unfold occurrences, rows_naming. rewrite filter_fmap, length_fmap.
  f_equal. apply list_filter_iff. intros r. simpl. naive_solver.
Qed.

(** When no row occurs twice, a player is named once per roster. *)
Lemma length_groups_of df p :
  NoDup df -> length (groups_of df p) = length (rows_naming df p).
Proof.
  intros Hdf. unfold groups_of. rewrite length_remove_dups_NoDup, length_fmap; [done|].
  apply NoDup_fmap_2_strong; [|by apply NoDup_filter].
  intros r1 r2 [H1 _]%list_elem_of_filter [H2 _]%list_elem_of_filter Hk.
  apply row_eq; congruence.
Qed.

Lemma elem_of_groups_of df p k :
  k ∈ groups_of df p <-> exists r, r ∈ df /\ row_key r = k /\ Player r = p.
Proof.
  unfold groups_of, rows_naming.
  rewrite elem_of_remove_dups, list_elem_of_fmap.
  setoid_rewrite list_elem_of_filter. naive_solver.
Qed.

Lemma elem_of_roster_players df g p :
  g ∈ groupby df -> p ∈ Player <$> g.2 <-> g.1 ∈ groups_of df p.
Proof.
  intros [_ ->]%elem_of_groupby.
  rewrite elem_of_groups_of, list_elem_of_fmap.
  setoid_rewrite list_elem_of_filter. naive_solver.
Qed.

Lemma NoDup_roster_players df g :
  NoDup df -> g ∈ groupby df -> NoDup (Player <$> g.2).
Proof.
  intros Hdf [_ ->]%elem_of_groupby.
  apply NoDup_fmap_2_strong; [|by apply NoDup_filter].
  intros r1 r2 [H1 _]%list_elem_of_filter [H2 _]%list_elem_of_filter Hp.
  apply row_eq; congruence.
Qed.

Lemma length_filter_eq_NoDup {A} `{EqDecision A} (l : list A) c :
  NoDup l -> length (filter (fun y => c = y) l) = if decide (c ∈ l) then 1%nat else 0%nat.
Proof.
  induction 1 as [|x l Hx Hl IH]; [done|].
  rewrite filter_cons. destruct (decide (c = x)) as [->|Hne]; simpl.
  - rewrite decide_True by left. rewrite IH, decide_False; done.
  - rewrite IH. destruct (decide (c ∈ l)).
    + rewrite decide_True; [done|by right].
    + rewrite decide_False; [done|]. by intros [?|?]%elem_of_cons.
Qed.

(** Among the pairs of a list without repetition, two different members of the
    list form exactly one pair. *)
Lemma pair_count_combinations2 u v l :
  NoDup l ->
  pair_count u v (combinations2 l)
  = if decide (u <> v /\ u ∈ l /\ v ∈ l) then 1%nat else 0%nat.
Proof.
  induction 1 as [|x l Hx Hl IH].
  { simpl. rewrite decide_False; [done|]. by intros (_ & ?%elem_of_nil & _). }
  simpl. rewrite pair_count_app, IH. clear IH.
  unfold pair_count at 1. rewrite filter_fmap, length_fmap.
  destruct (decide (u = x)) as [->|Hux].
  - rewrite (list_filter_iff _ (fun y => v = y)).
    2:{ intros y. unfold same_pair. simpl. naive_solver. }
    rewrite length_filter_eq_NoDup by done.
    repeat case_decide; try done; set_solver.
  - destruct (decide (v = x)) as [->|Hvx].
    + rewrite (list_filter_iff _ (fun y => u = y)).
      2:{ intros y. unfold same_pair. simpl. naive_solver. }
      rewrite length_filter_eq_NoDup by done.
      repeat case_decide; try done; set_solver.
    + rewrite (list_filter_iff _ (fun y => False)).
      2:{ intros y. unfold same_pair. simpl. naive_solver. }
      assert (filter (fun _ : string => False) l = []) as ->.
      { clear. induction l; [done|]. by rewrite filter_cons_False by tauto. }
      repeat case_decide; try done; set_solver.
Qed.

Lemma pair_count_bind_indicator {X} (gs : list X) (f : X -> list (node * node))
    (Q : X -> Prop) `{forall g, Decision (Q g)} u v :
  (forall g, g ∈ gs ->
     pair_count u v (f g) = if decide (Q g) then 1%nat else 0%nat) ->
  pair_count u v (gs ≫= f) = length (filter Q gs).
Proof.
  induction gs as [|g gs IH]; intros Hf; [done|].
  rewrite (bind_cons f g gs), pair_count_app, Hf by left.
  rewrite IH by (intros; apply Hf; by right).
  rewrite filter_cons. by destruct (decide (Q g)).
Qed.

Lemma NoDup_keys_groupby df : NoDup (groupby df).*1.
Proof. rewrite keys_groupby. apply NoDup_remove_dups. Qed.

Lemma groups_of_keys df p k : k ∈ groups_of df p -> k ∈ (groupby df).*1.
Proof.
  rewrite keys_groupby, elem_of_remove_dups, elem_of_groups_of.
  intros (r & Hr & <- & _). by apply list_elem_of_fmap_2.
Qed.

(** When no row occurs twice, two different players are paired once for every
    roster that names both, and no player is paired with itself. *)
Lemma pair_count_all_pairs df u v :
  NoDup df ->
  pair_count u v (all_pairs df)
  = if decide (u = v) then 0%nat else length (co_groups df u v).
Proof.
  intros Hdf. unfold all_pairs.
  rewrite (pair_count_bind_indicator _ _
    (fun g => u <> v /\ g.1 ∈ groups_of df u /\ g.1 ∈ groups_of df v)).
  2:{ intros g Hg. unfold roster_pairs.
      rewrite pair_count_combinations2.
      2:{ unfold sorted. rewrite merge_sort_Permutation.
          by apply (NoDup_roster_players df). }
      apply decide_ext. unfold sorted. rewrite !merge_sort_Permutation.
      by rewrite !(elem_of_roster_players df g) by done. }
  destruct (decide (u = v)) as [->|Hne].
  { rewrite (list_filter_iff _ (fun _ => False)) by naive_solver.
    generalize (groupby df). intros l.
    induction l; [done|]. by rewrite filter_cons_False by tauto. }
  rewrite (list_filter_iff _
    (fun g => (fun k => k ∈ groups_of df u /\ k ∈ groups_of df v) g.1))
    by naive_solver.
  trans (length (filter (fun k => k ∈ groups_of df u /\ k ∈ groups_of df v)
                        (groupby df).*1)).
  { by rewrite filter_fmap, length_fmap. }
  apply Permutation_length, NoDup_Permutation.
  - apply NoDup_filter, NoDup_keys_groupby.
  - apply NoDup_filter, NoDup_remove_dups.
  - intros k. unfold co_groups. rewrite !list_elem_of_filter.
    pose proof (groups_of_keys df u k). naive_solver.
Qed.

(** ** The weight of an edge *)

Lemma edge_weight_pair_weight G u v :
  graph_wf G -> weighted G -> has_edge G u v = true ->
  edge_weight G u v = Ok (pair_weight G u v).
Proof.
  intros HG HW Huv. unfold edge_weight, pair_weight. rewrite Huv.
  apply has_edge_edge_ref in Huv as [r Hr]. unfold getitem2. rewrite Hr. cbn.
  destruct (wf_sym G HG _ _ _ Hr) as [_ Hlt].
  destruct (lookup_lt_is_Some_2 _ _ Hlt) as [x Hx]. rewrite Hx. cbn.
  by destruct (proj1 (Forall_lookup _ _) HW _ _ Hx) as [w ->].
Qed.

Lemma initial_graph_no_edge df u v :
  has_edge (initial_graph df) u v = false /\ pair_weight (initial_graph df) u v = 0.
Proof.
  pose proof (na_edges _ _ (initial_graph_spec df) u v) as Huv. split.
  - apply not_true_iff_false. rewrite has_edge_eref, Huv. by intros [? ?].
  - by rewrite pair_weight_eref, Huv.
Qed.

Lemma build_graph_built df : exists G, build_graph df = Ok G /\ built df G.
Proof.
  destruct (build_graph_spec df) as (G & HG & [H1 H2 H3 H4 H5 H6]).
  exists G. split; [done|]. pose proof (initial_graph_spec df) as H0. split.
  - done.
  - done.
  - by rewrite H3, (na_nodes _ _ H0), keys_value_counts.
  - intros p Hp. rewrite H4 by (by apply elem_of_nodes_initial_graph).
    rewrite (na_attrs _ _ H0), dict_get_value_counts by done.
    by rewrite occurrences_Player.
  - intros u v. rewrite H5.
    by rewrite (proj1 (initial_graph_no_edge df u v)).
  - intros u v. rewrite H6.
    by rewrite (proj2 (initial_graph_no_edge df u v)).
Qed.

Lemma dict_get_fmap_snd {K V W} `{EqDecision K} (f : V -> W) (d : dict K V) k :
  dict_get k ((fun kv => (kv.1, f kv.2)) <$> d) = f <$> dict_get k d.
Proof.
  induction d as [|[k' v] d IH]; csimpl; [done|].
  by destruct (decide (k = k')).
Qed.

Lemma iteration_order_nodes G : nodes G = (iteration_order G).*1.
Proof.
  unfold nodes, keys, iteration_order. by rewrite <-list_fmap_compose.
Qed.

Lemma iteration_order_neighbors G n :
  neighbors G n
  = match dict_get n (iteration_order G) with
    | Some nbrs => Ok nbrs
    | None => Raise NetworkXError
    end.
Proof.
  unfold neighbors, iteration_order.
  rewrite (dict_get_fmap_snd (fun e => keys (adj e))).
  by destruct (dict_get n (entries G)).
Qed.

(** ** Lengths without paths, and length 1 *)






(** ** The scenario, run *)

(** A decidable statement about concrete data, settled by evaluating it. *)
Ltac by_computation := apply (bool_decide_unpack _); vm_compute; exact I.

(** The five-node scenario is a well-formed graph. *)
Lemma scenario_wf : graph_wf scenario.
Proof.
  unfold scenario. simpl.
  repeat first [apply add_edge_wf | apply add_node_wf | apply empty_graph_wf].
Qed.

Example scenario_paths_3 :
  precompute_unique_paths scenario 3
  = Ok [["A"; "B"; "C"]; ["A"; "C"; "D"]; ["B"; "C"; "D"]; ["C"; "D"; "E"]].
Proof. by vm_compute. Qed.

Example scenario_paths_5 :
  precompute_unique_paths scenario 5 = Ok [["A"; "B"; "C"; "D"; "E"]] /\
  compute_group_score scenario ["A"; "B"; "C"; "D"; "E"] = Ok 15 /\
  query_paths_with_node [["A"; "B"; "C"; "D"; "E"]] "A"
  = [["A"; "B"; "C"; "D"; "E"]].
Proof. split_and!; by vm_compute. Qed.

Example scenario_query :
  query_paths_with_node
    [["A"; "B"; "C"]; ["A"; "C"; "D"]; ["B"; "C"; "D"]; ["C"; "D"; "E"]] "D"
  = [["A"; "C"; "D"]; ["B"; "C"; "D"]; ["C"; "D"; "E"]] /\
  query_paths_with_node [["A"; "B"; "C"]; ["C"; "D"; "E"]] "Z" = [].
Proof. split; by vm_compute. Qed.

Example clean_rows_graph :
  build_graph clean_rows
  = Ok (MkGraph
          [("A", Entry (Some 2) [("B", 0%nat); ("C", 1%nat)]);
           ("B", Entry (Some 2) [("A", 0%nat); ("C", 2%nat)]);
           ("C", Entry (Some 1) [("A", 1%nat); ("B", 2%nat)])]
          [Some 2; Some 1; Some 1]).
Proof. by vm_compute. Qed.

(** * The claims *)



(** C2.  On every graph and for every length (so for every k >= 1), the
    enumeration returns a library in which no two entries have the same member
    set, every entry is a simple path of the graph with exactly that many
    nodes, and every simple path of that many nodes has its member set
    represented by exactly one entry, whichever way round and from whichever
    start the path is walked. *)
Theorem precompute_unique_paths_library G k :
  graph_wf G ->
  exists lib, precompute_unique_paths G k = Ok lib /\
    (forall i j p q, lib !! i = Some p -> lib !! j = Some q ->
       same_members p q -> i = j) /\
    (forall p, p ∈ lib -> Z.of_nat (length p) = k /\ simple_path G p) /\
    (forall q, simple_path G q -> Z.of_nat (length q) = k ->
       exists i p, lib !! i = Some p /\ same_members p q /\
         forall j p', lib !! j = Some p' -> same_members p' q -> j = i).
Proof.
  intros HG. rewrite precompute_unique_paths_walks by done.
  set (a := foldl record ([], ∅) (all_walks G k)).
  assert (accs_inv a) as [Hnd Hseen] by apply foldl_record_inv, accs_inv_empty.
  assert (forall p, p ∈ a.1 -> Z.of_nat (length p) = k /\ simple_path G p) as Hsound.
  { intros p [?%elem_of_nil|Hp]%foldl_record_sub; [done|].
    apply elem_of_all_walks in Hp; naive_solver. }
  assert (forall i j p q, a.1 !! i = Some p -> a.1 !! j = Some q ->
            same_members p q -> i = j) as Huniq.
  { intros i j p q Hi Hj Hpq.
    apply (NoDup_lookup _ i j (sorted p) Hnd).
    - by rewrite list_lookup_fmap, Hi.
    - rewrite list_lookup_fmap, Hj. simpl. f_equal. symmetry.
      apply same_members_sorted; [| |done].
      + apply (Hsound p). by eapply list_elem_of_lookup_2.
      + apply (Hsound q). by eapply list_elem_of_lookup_2. }
  exists a.1. split_and!; [done|done|done|].
  intros q Hq Hk.
  assert (sorted q ∈ a.2) as Hin.
  { apply foldl_record_seen, elem_of_all_walks; done. }
  apply Hseen, list_elem_of_fmap in Hin as (p & Hpq & Hp).
  pose proof Hp as [i Hi]%list_elem_of_lookup_1.
  assert (same_members p q) as Hsame.
  { symmetry in Hpq. apply sorted_eq_iff in Hpq. intros n. by rewrite Hpq. }
  exists i, p. split_and!; [done|done|].
  intros j p' Hj Hp'. apply (Huniq j i p' p Hj Hi).
  intros n. by rewrite (Hp' n), (Hsame n).
Qed.

Lemma precompute_unique_paths_library_witness :
  graph_wf scenario /\
  exists lib, precompute_unique_paths scenario 3 = Ok lib /\
    (forall i j p q, lib !! i = Some p -> lib !! j = Some q ->
       same_members p q -> i = j) /\
    (forall p, p ∈ lib -> Z.of_nat (length p) = 3 /\ simple_path scenario p) /\
    (forall q, simple_path scenario q -> Z.of_nat (length q) = 3 ->
       exists i p, lib !! i = Some p /\ same_members p q /\
         forall j p', lib !! j = Some p' -> same_members p' q -> j = i).
Proof.
  split; [exact scenario_wf|].
  exact (precompute_unique_paths_library scenario 3 scenario_wf).
Defined.

(** C3.  On every graph and every non-empty sequence of groups of its nodes,
    [find_max_group] returns a group of the sequence with its score; no group
    of the sequence scores higher, and every group before it in the sequence
    scores strictly lower: of several groups with the maximal score it is the
    first.  Whenever [find_max_group] returns on a non-empty sequence, it
    returns such a group. *)
Theorem find_max_group_first_max G groups :
  groups <> [] ->
  (graph_wf G -> Forall (Forall (fun n => n ∈ nodes G)) groups ->
   exists b, find_max_group G groups = Ok b) /\
  (forall b, find_max_group G groups = Ok b ->
   exists i g s, b = (Some g, Some s) /\ groups !! i = Some g /\
     compute_group_score G g = Ok s /\
     forall j g', groups !! j = Some g' ->
       exists s', compute_group_score G g' = Ok s' /\ s' <= s /\
                  ((j < i)%nat -> s' < s)).
Proof.
  intros Hne. split.
  - intros HG Hg. destruct (find_max_group_best G groups) as (b & Hb & _);
      [by apply scorable|eauto].
  - intros b Hb. pose proof (find_max_group_scored G groups b Hb) as Hsc.
    destruct (find_max_group_best G groups Hsc) as (b' & Hb' & Hbest).
    assert (b' = b) as -> by congruence.
    destruct b as [[g|] [s|]]; simpl in Hbest; try done.
    destruct Hbest as (i & Hi & Hs & Hmax). by exists i, g, s.
Qed.

Lemma find_max_group_first_max_witness :
  [["C"; "D"; "E"]; ["A"; "B"; "C"]; ["B"; "A"; "C"]] <> [] /\
  exists i g s,
    find_max_group scenario [["C"; "D"; "E"]; ["A"; "B"; "C"]; ["B"; "A"; "C"]]
      = Ok (Some g, Some s) /\
    [["C"; "D"; "E"]; ["A"; "B"; "C"]; ["B"; "A"; "C"]] !! i = Some g /\
    compute_group_score scenario g = Ok s /\
    forall j g',
      [["C"; "D"; "E"]; ["A"; "B"; "C"]; ["B"; "A"; "C"]] !! j = Some g' ->
      exists s', compute_group_score scenario g' = Ok s' /\ s' <= s /\
                 ((j < i)%nat -> s' < s).
Proof.
  assert ([["C"; "D"; "E"]; ["A"; "B"; "C"]; ["B"; "A"; "C"]] <> []) as Hne
    by discriminate.
  split; [exact Hne|].
  destruct (proj2 (find_max_group_first_max scenario _ Hne)
              (Some ["A"; "B"; "C"], Some 11))
    as (i & g & s & Hb & Hrest); [vm_compute; reflexivity|].
  exists i, g, s. split; [|exact Hrest].
  rewrite <-Hb. vm_compute. reflexivity.
Defined.

(** C4, as the code has it.  The graph is built for every table, and the
    weight of the node of a player is the number of rows that name the player;
    when no row occurs twice, that is, when no roster names a player more than
    once, this is the number of distinct rosters that contain the player. *)
Theorem node_weight_counts_rows df p :
  p ∈ Player <$> df ->
  exists G, build_graph df = Ok G /\
    nodes_getitem G p = Ok (Some (Z.of_nat (length (rows_naming df p)))) /\
    (NoDup df ->
     nodes_getitem G p = Ok (Some (Z.of_nat (length (groups_of df p))))).
Proof.
  intros Hp. destruct (build_graph_built df) as (G & HG & HB).
  exists G. split_and!; [done|by apply (b_attrs df G HB)|].
  intros Hdf. rewrite length_groups_of by done. by apply (b_attrs df G HB).
Qed.

Lemma node_weight_counts_rows_witness :
  "A" ∈ Player <$> clean_rows /\ NoDup clean_rows /\
  exists G, build_graph clean_rows = Ok G /\
    nodes_getitem G "A" = Ok (Some 2) /\
    Z.of_nat (length (groups_of clean_rows "A")) = 2.
Proof.
  assert ("A" ∈ Player <$> clean_rows) as Hp.
  { by_computation. }
  assert (NoDup clean_rows) as Hdf.
  { by_computation. }
  split; [exact Hp|]. split; [exact Hdf|].
  destruct (node_weight_counts_rows clean_rows "A" Hp) as (G & HG & _ & Hw).
  exists G. split; [exact HG|]. split; [|vm_compute; reflexivity].
  rewrite (Hw Hdf). vm_compute. reflexivity.
Defined.

(** C4 as stated fails: the player A, listed twice in the one roster of
    [repeated_rows], gets weight 2, and is in one roster. *)
Lemma node_weight_repeated_counterexample :
  exists G, build_graph repeated_rows = Ok G /\
    nodes_getitem G "A" = Ok (Some 2) /\
    length (groups_of repeated_rows "A") = 1%nat /\
    nodes_getitem G "A"
    <> Ok (Some (Z.of_nat (length (groups_of repeated_rows "A")))).
Proof. eexists. split_and!; vm_compute; (reflexivity || discriminate). Qed.

(** C5, as the code has it.  The graph is built for every table, with at most
    one edge per unordered pair, its weight the same from both ends.  The
    members of a roster are paired as the rows list them, nothing is removed
    first: when no row occurs twice, that is, when no roster names a player
    more than once, no node has an edge to itself, two players have an edge
    exactly when some roster names both, and the weight of the edge is the
    number of distinct rosters that name both. *)
Theorem edge_weight_counts_rosters df :
  exists G, build_graph df = Ok G /\ graph_wf G /\
    (forall u v, edge_weight G u v = edge_weight G v u) /\
    (NoDup df ->
     (forall u, has_edge G u u = false) /\
     (forall u v, has_edge G u v = true <-> u <> v /\ co_groups df u v <> []) /\
     (forall u v, has_edge G u v = true ->
        edge_weight G u v = Ok (Z.of_nat (length (co_groups df u v))))).
Proof.
  destruct (build_graph_built df) as (G & HG & HB).
  pose proof (b_wf df G HB) as Hwf.
  exists G. split_and!; [done|done| |].
  { intros u v. unfold edge_weight. by rewrite (getitem2_sym G u v). }
  intros Hdf.
  assert (forall u v, has_edge G u v = true <-> u <> v /\ co_groups df u v <> [])
    as Hedge.
  { intros u v. rewrite (b_edge df G HB), bool_decide_eq_true.
    rewrite pair_count_all_pairs by done.
    destruct (decide (u = v)) as [->|Hne]; [split; [lia|naive_solver]|].
    destruct (co_groups df u v); simpl; split; try lia; naive_solver lia. }
  split_and!; [|done|].
  - intros u. apply not_true_iff_false. rewrite Hedge. naive_solver.
  - intros u v Huv.
    rewrite edge_weight_pair_weight; [|done|apply (b_weighted df G HB)|done].
    rewrite (b_weight df G HB), pair_count_all_pairs by done.
    apply Hedge in Huv as [Hne _]. by rewrite decide_False.
Qed.

Lemma edge_weight_counts_rosters_witness :
  NoDup clean_rows /\
  exists G, build_graph clean_rows = Ok G /\
    has_edge G "A" "A" = false /\
    edge_weight G "B" "A" = Ok 2 /\
    edge_weight G "A" "C" = Ok 1.
Proof.
  assert (NoDup clean_rows) as Hdf.
  { by_computation. }
  split; [exact Hdf|].
  destruct (edge_weight_counts_rosters clean_rows)
    as (G & HG & _ & _ & Hclean).
  destruct (Hclean Hdf) as (Hloop & Hedge & Hweight).
  exists G. split; [exact HG|]. split; [apply Hloop|]. split.
  - rewrite Hweight; [vm_compute; reflexivity|].
    apply Hedge. split; [discriminate|]. vm_compute. discriminate.
  - rewrite Hweight; [vm_compute; reflexivity|].
    apply Hedge. split; [discriminate|]. vm_compute. discriminate.
Defined.

(** C5 as stated fails: on [repeated_rows], whose one roster lists A twice, the
    node A gets an edge to itself and the edge between A and B gets weight 2,
    while one roster names both. *)
Lemma edge_weight_repeated_counterexample :
  exists G, build_graph repeated_rows = Ok G /\
    has_edge G "A" "A" = true /\
    edge_weight G "A" "B" = Ok 2 /\
    length (co_groups repeated_rows "A" "B") = 1%nat /\
    edge_weight G "A" "B"
    <> Ok (Z.of_nat (length (co_groups repeated_rows "A" "B"))).
Proof. eexists. split_and!; vm_compute; (reflexivity || discriminate). Qed.






(** C8.  Scoring a group with a member that is not a node of the graph raises
    [KeyError], the exception of the lookup [G.nodes[node]]; scoring a group
    whose members are all nodes of the graph returns a score. *)
Theorem compute_group_score_unknown_node G g :
  (Exists (fun n => n ∉ nodes G) g -> compute_group_score G g = Raise KeyError) /\
  (graph_wf G -> Forall (fun n => n ∈ nodes G) g ->
   exists s, compute_group_score G g = Ok s).
Proof.
  split.
  - apply compute_group_score_absent.
  - intros HG Hg. eexists. by apply compute_group_score_Ok.
Qed.

Lemma compute_group_score_unknown_node_witness :
  Exists (fun n => n ∉ nodes scenario) ["A"; "Z"] /\
  compute_group_score scenario ["A"; "Z"] = Raise KeyError.
Proof.
  assert (Exists (fun n => n ∉ nodes scenario) ["A"; "Z"]) as Hg.
  { by_computation. }
  split; [exact Hg|].
  exact (proj1 (compute_group_score_unknown_node scenario ["A"; "Z"]) Hg).
Defined.

(** C9.  The library, with the order of its groups and the order of the nodes
    within each group, is determined by the length, the order in which the
    graph lists its nodes and the order in which it lists the neighbours of
    each node: two runs that agree on these, and so two runs on the same
    graph, return the same library. *)
Theorem precompute_unique_paths_deterministic G G' k :
  iteration_order G = iteration_order G' ->
  precompute_unique_paths G k = precompute_unique_paths G' k.
Proof.
  intros Horder. unfold precompute_unique_paths.
  rewrite !iteration_order_nodes, <-Horder. f_equal.
  apply for_each_ext. intros s n _. rewrite (dfs_ext _ G G'); [done|].
  intros m. by rewrite !iteration_order_neighbors, Horder.
Qed.

Lemma precompute_unique_paths_deterministic_witness :
  iteration_order scenario = iteration_order scenario_reweighted /\
  precompute_unique_paths scenario 3
  = precompute_unique_paths scenario_reweighted 3.
Proof.
  assert (iteration_order scenario = iteration_order scenario_reweighted)
    as Horder by (vm_compute; reflexivity).
  split; [exact Horder|].
  exact (precompute_unique_paths_deterministic scenario scenario_reweighted 3
           Horder).
Defined.

(** C10.  On a non-empty sequence of groups of nodes of the graph,
    [find_max_group] returns a pair of a group and a score in which the group
    is an element of the sequence, as it stands there, and the score is the
    score of that group; this is what it returns whenever it returns on a
    non-empty sequence.  On the empty sequence it returns [(None, None)]
    and does not raise. *)
Theorem find_max_group_member G groups :
  find_max_group G [] = Ok (None, None) /\
  (groups <> [] ->
   (graph_wf G -> Forall (Forall (fun n => n ∈ nodes G)) groups ->
    exists g s, find_max_group G groups = Ok (Some g, Some s)) /\
   (forall b, find_max_group G groups = Ok b ->
    exists g s, b = (Some g, Some s) /\ g ∈ groups /\
      compute_group_score G g = Ok s)).
Proof.
  split; [done|]. intros Hne.
  assert (forall b, find_max_group G groups = Ok b ->
    exists g s, b = (Some g, Some s) /\ g ∈ groups /\
      compute_group_score G g = Ok s) as Hret.
  { intros b Hb. pose proof (find_max_group_scored G groups b Hb) as Hsc.
    destruct (find_max_group_best G groups Hsc) as (b' & Hb' & Hbest).
    assert (b' = b) as -> by congruence.
    destruct b as [[g|] [s|]]; simpl in Hbest; try done.
    destruct Hbest as (i & Hi & Hs & _). exists g, s.
    split_and!; [done| |done]. by eapply list_elem_of_lookup_2. }
  split; [|done]. intros HG Hg.
  destruct (find_max_group_best G groups) as (b & Hb & _); [by apply scorable|].
  destruct (Hret b Hb) as (g & s & -> & _). eauto.
Qed.

Lemma find_max_group_member_witness :
  [["C"; "D"; "E"]; ["A"; "B"; "C"]] <> [] /\
  graph_wf scenario /\
  Forall (Forall (fun n => n ∈ nodes scenario))
         [["C"; "D"; "E"]; ["A"; "B"; "C"]] /\
  exists g s,
    find_max_group scenario [["C"; "D"; "E"]; ["A"; "B"; "C"]]
      = Ok (Some g, Some s).
Proof.
  assert ([["C"; "D"; "E"]; ["A"; "B"; "C"]] <> []) as Hne by discriminate.
  assert (Forall (Forall (fun n => n ∈ nodes scenario))
                 [["C"; "D"; "E"]; ["A"; "B"; "C"]]) as Hg.
  { by_computation. }
  split; [exact Hne|]. split; [exact scenario_wf|]. split; [exact Hg|].
  exact (proj1 (proj2 (find_max_group_member scenario _) Hne) scenario_wf Hg).
Defined.

(** * Further properties *)

(** ** The score does not depend on the order of the members *)

Lemma Zsum_Permutation xs ys : xs ≡ₚ ys -> Zsum xs = Zsum ys.
Proof. induction 1; simpl; lia. Qed.

Lemma pair_sum_Permutation (f : node -> node -> Z) p q :
  (forall u v, f u v = f v u) -> p ≡ₚ q -> pair_sum f p = pair_sum f q.
Proof.
  intros Hf. induction 1 as [|x p q Hpq IH|x y p|p q r _ IH1 _ IH2].
  - done.
  - rewrite !pair_sum_cons, IH. f_equal. apply Zsum_Permutation.
    by apply fmap_Permutation.
  - rewrite !pair_sum_cons. csimpl. rewrite (Hf y x). lia.
  - congruence.
Qed.

Lemma Exists_absent_Permutation G (p q : list node) :
  p ≡ₚ q -> Exists (fun n => n ∉ nodes G) p -> Exists (fun n => n ∉ nodes G) q.
Proof. intros Hpq. by rewrite Hpq. Qed.

(** A score is returned exactly when every member is a node, and [KeyError]
    is the only exception. *)
Lemma compute_group_score_cases G g :
  graph_wf G ->
  (Forall (fun n => n ∈ nodes G) g /\
   compute_group_score G g = Ok (group_score_spec G g)) \/
  (Exists (fun n => n ∉ nodes G) g /\
   compute_group_score G g = Raise KeyError).
Proof.
  intros HG. destruct (decide (Forall (fun n => n ∈ nodes G) g)) as [Hg|Hg].
  - left. split; [done|]. by apply compute_group_score_Ok.
  - right. apply not_Forall_Exists in Hg; [|apply _].
    split; [done|]. by apply compute_group_score_absent.
Qed.

Lemma compute_group_score_rearranged G p q :
  graph_wf G -> p ≡ₚ q -> compute_group_score G p = compute_group_score G q.
Proof.
  intros HG Hpq. destruct (compute_group_score_cases G p HG) as [[Hp ->]|[Hp ->]].
  - rewrite compute_group_score_Ok; [|done|by rewrite <-Hpq].
    unfold group_score_spec. f_equal. f_equal.
    + apply Zsum_Permutation. by apply fmap_Permutation.
    + apply pair_sum_Permutation; [|done]. intros u v. by apply pair_weight_sym.
  - symmetry. apply compute_group_score_absent. by rewrite <-Hpq.
Qed.

(** X2.  On a graph, the score of a group is the score of every rearrangement
    of it: it depends on the members, not on the order in which the path
    lists them; a group with an unknown member raises in every order. *)
Theorem compute_group_score_Permutation G p q :
  graph_wf G -> p ≡ₚ q -> compute_group_score G p = compute_group_score G q.
Proof. apply compute_group_score_rearranged. Qed.

Lemma compute_group_score_Permutation_witness :
  graph_wf scenario /\ ["C"; "A"; "B"] ≡ₚ ["A"; "B"; "C"] /\
  compute_group_score scenario ["C"; "A"; "B"]
  = compute_group_score scenario ["A"; "B"; "C"].
Proof.
  assert (["C"; "A"; "B"] ≡ₚ ["A"; "B"; "C"]) as Hperm.
  { apply (Permutation_cons_app ["A"; "B"] [] "C"). by rewrite app_nil_r. }
  split; [exact scenario_wf|]. split; [exact Hperm|].
  exact (compute_group_score_Permutation scenario _ _ scenario_wf Hperm).
Defined.

(** ** Selection when a group cannot be scored *)

Lemma find_max_step_Ok G b g s :
  compute_group_score G g = Ok s -> exists b', find_max_step G b g = Ok b'.
Proof.
  intros Hs. unfold find_max_step. rewrite Hs. cbn.
  destruct b.2; [case_bool_decide|]; eauto.
Qed.

Lemma find_max_loop_absent G groups b :
  graph_wf G -> Exists (Exists (fun n => n ∉ nodes G)) groups ->
  for_each (find_max_step G) groups b = Raise KeyError.
Proof.
  intros HG Hbad. revert b.
  induction Hbad as [g groups Hg|g groups Hbad IH]; intros b; cbn [for_each].
  - unfold find_max_step. by rewrite compute_group_score_absent.
  - destruct (compute_group_score_cases G g HG) as [[_ Hs]|[_ Hs]].
    + destruct (find_max_step_Ok G b g _ Hs) as [b' ->]. cbn. apply IH.
    + unfold find_max_step. by rewrite Hs.
Qed.

(** X5.  On a graph, [find_max_group] raises exactly when some group of the
    sequence has a member that is not a node, wherever that group stands and
    whatever the other groups score, and what it raises is [KeyError];
    otherwise it returns. *)
Theorem find_max_group_raises G groups :
  graph_wf G ->
  (find_max_group G groups = Raise KeyError
   <-> Exists (Exists (fun n => n ∉ nodes G)) groups) /\
  (Forall (Forall (fun n => n ∈ nodes G)) groups
   <-> exists b, find_max_group G groups = Ok b).
Proof.
  intros HG.
  assert (Forall (Forall (fun n => n ∈ nodes G)) groups \/
          Exists (Exists (fun n => n ∉ nodes G)) groups) as [Hok|Hbad].
  { destruct (decide (Forall (Forall (fun n => n ∈ nodes G)) groups)) as [?|Hn];
      [by left|right].
    apply not_Forall_Exists in Hn; [|apply _].
    eapply Exists_impl; [exact Hn|]. intros g Hg. simpl in Hg.
    apply not_Forall_Exists in Hg; [done|apply _]. }
  - destruct (find_max_group_best G groups) as (b & Hb & _);
      [by apply scorable|].
    split; split; try done; eauto.
    + rewrite Hb. done.
    + intros Hbad. apply (find_max_loop_absent G groups (None, None) HG) in Hbad.
      unfold find_max_group in Hb. congruence.
  - pose proof (find_max_loop_absent G groups (None, None) HG Hbad) as Hr.
    split; split; try done.
    + intros Hok. destruct (find_max_group_best G groups) as (b & Hb & _);
        [by apply scorable|]. unfold find_max_group in Hb. congruence.
    + intros [b Hb]. unfold find_max_group in Hb. congruence.
Qed.

Lemma find_max_group_raises_witness :
  graph_wf scenario /\
  find_max_group scenario [["A"; "B"; "C"]; ["C"; "Z"]; ["C"; "D"; "E"]]
  = Raise KeyError.
Proof.
  split; [exact scenario_wf|].
  apply (proj1 (find_max_group_raises scenario _ scenario_wf)).
  by_computation.
Defined.

(** ** The library, filtered and searched *)

(** What the enumeration returns on a graph, for use below. *)
Lemma library_facts G k :
  graph_wf G ->
  exists lib, precompute_unique_paths G k = Ok lib /\
    (forall p, p ∈ lib -> Z.of_nat (length p) = k /\ simple_path G p) /\
    (forall q, simple_path G q -> Z.of_nat (length q) = k ->
       exists p, p ∈ lib /\ p ≡ₚ q).
Proof.
  intros HG. rewrite precompute_unique_paths_walks by done.
  set (a := foldl record ([], ∅) (all_walks G k)).
  assert (accs_inv a) as [Hnd Hseen] by apply foldl_record_inv, accs_inv_empty.
  exists a.1. split_and!; [done| |].
  - intros p [?%elem_of_nil|Hp]%foldl_record_sub; [done|].
    apply elem_of_all_walks in Hp; naive_solver.
  - intros q Hq Hk.
    assert (sorted q ∈ a.2) as Hin
      by (apply foldl_record_seen, elem_of_all_walks; done).
    apply Hseen, list_elem_of_fmap in Hin as (p & Hpq & Hp).
    exists p. split; [done|]. symmetry. by apply sorted_eq_iff.
Qed.

Lemma simple_path_nodes G p : simple_path G p -> Forall (fun n => n ∈ nodes G) p.
Proof. by intros (_ & ? & _). Qed.

Lemma elem_of_query_paths_with_node lib n p :
  p ∈ query_paths_with_node lib n <-> n ∈ p /\ p ∈ lib.
Proof. unfold query_paths_with_node. apply list_elem_of_filter. Qed.

(** The best group of a list of groups of nodes is at least as good as every
    group that has a rearrangement in the list. *)
Lemma find_max_group_optimal G (L : list (list node)) (Q : list node -> Prop) :
  graph_wf G -> Forall (Forall (fun n => n ∈ nodes G)) L ->
  (forall q, Q q -> exists p, p ∈ L /\ p ≡ₚ q) ->
  exists b, find_max_group G L = Ok b /\
    match b with
    | (Some g, Some s) =>
        g ∈ L /\ compute_group_score G g = Ok s /\
        forall q, Q q -> exists s', compute_group_score G q = Ok s' /\ s' <= s
    | (None, None) => L = [] /\ forall q, ~ Q q
    | _ => False
    end.
Proof.
  intros HG HL HQ.
  destruct (find_max_group_best G L) as (b & Hb & Hbest); [by apply scorable|].
  exists b. split; [done|]. destruct b as [[g|] [s|]]; simpl in Hbest; try done.
  - destruct Hbest as (i & Hi & Hs & Hmax).
    split_and!; [by eapply list_elem_of_lookup_2|done|].
    intros q Hq. destruct (HQ q Hq) as (p & [j Hj]%list_elem_of_lookup_1 & Hpq).
    destruct (Hmax j p Hj) as (s' & Hs' & Hle & _).
    exists s'. split; [|done].
    by rewrite <-(compute_group_score_rearranged G p q).
  - split; [done|]. intros q Hq. destruct (HQ q Hq) as (p & Hp & _).
    rewrite Hbest in Hp. by apply elem_of_nil in Hp.
Qed.

(** X1.  Of the library of a graph, [query_paths_with_node] keeps, in the order
    of the library, the entries that contain the node.  Every simple path of
    [k] nodes through the node has a rearrangement among them, and a node that
    is not in the graph yields the empty list. *)
Theorem query_paths_with_node_library G k lib n :
  graph_wf G -> precompute_unique_paths G k = Ok lib ->
  query_paths_with_node lib n `sublist_of` lib /\
  (forall p, p ∈ query_paths_with_node lib n ->
     n ∈ p /\ Z.of_nat (length p) = k /\ simple_path G p) /\
  (forall q, simple_path G q -> Z.of_nat (length q) = k -> n ∈ q ->
     exists p, p ∈ query_paths_with_node lib n /\ p ≡ₚ q) /\
  (n ∉ nodes G -> query_paths_with_node lib n = []).
Proof.
  intros HG Hlib.
  destruct (library_facts G k HG) as (lib' & Hlib' & Hsound & Hcomplete).
  assert (lib' = lib) as -> by congruence.
  assert (forall p, p ∈ query_paths_with_node lib n ->
            n ∈ p /\ Z.of_nat (length p) = k /\ simple_path G p) as Hq.
  { intros p [Hn Hp]%elem_of_query_paths_with_node.
    destruct (Hsound p Hp). done. }
  split_and!; [apply sublist_filter|done| |].
  - intros q Hq1 Hk Hn. destruct (Hcomplete q Hq1 Hk) as (p & Hp & Hpq).
    exists p. split; [|done]. apply elem_of_query_paths_with_node.
    split; [by rewrite Hpq|done].
  - intros Hn. apply elem_of_nil_inv. intros p Hp.
    destruct (Hq p Hp) as (Hnp & _ & Hpath). apply Hn.
    by apply (proj1 (Forall_forall _ _) (simple_path_nodes G p Hpath)).
Qed.

Lemma query_paths_with_node_library_witness :
  graph_wf scenario /\
  precompute_unique_paths scenario 3
  = Ok [["A"; "B"; "C"]; ["A"; "C"; "D"]; ["B"; "C"; "D"]; ["C"; "D"; "E"]] /\
  "Z" ∉ nodes scenario /\
  query_paths_with_node
    [["A"; "B"; "C"]; ["A"; "C"; "D"]; ["B"; "C"; "D"]; ["C"; "D"; "E"]] "Z"
  = [].
Proof.
  assert ("Z" ∉ nodes scenario) as Hz by by_computation.
  split; [exact scenario_wf|]. split; [exact scenario_paths_3|].
  split; [exact Hz|].
  exact (proj2 (proj2 (proj2
    (query_paths_with_node_library scenario 3 _ "Z" scenario_wf
       scenario_paths_3))) Hz).
Defined.

(** X3.  The best group over the whole library of a graph is a simple path of
    [k] nodes whose score no simple path of [k] nodes of the graph exceeds,
    in whatever order that path lists its nodes; the search does not raise,
    and it returns [(None, None)] exactly when the graph has no simple path of
    [k] nodes. *)
Theorem best_group_optimal G k lib :
  graph_wf G -> precompute_unique_paths G k = Ok lib ->
  exists b, find_max_group G lib = Ok b /\
    match b with
    | (Some g, Some s) =>
        Z.of_nat (length g) = k /\ simple_path G g /\
        compute_group_score G g = Ok s /\
        forall q, simple_path G q -> Z.of_nat (length q) = k ->
          exists s', compute_group_score G q = Ok s' /\ s' <= s
    | (None, None) =>
        forall q, simple_path G q -> Z.of_nat (length q) <> k
    | _ => False
    end.
Proof.
  intros HG Hlib.
  destruct (library_facts G k HG) as (lib' & Hlib' & Hsound & Hcomplete).
  assert (lib' = lib) as -> by congruence.
  destruct (find_max_group_optimal G lib
              (fun q => simple_path G q /\ Z.of_nat (length q) = k) HG)
    as (b & Hb & Hbest).
  { apply Forall_forall. intros p Hp.
    apply simple_path_nodes. by apply (Hsound p). }
  { intros q [Hq Hk]. by apply Hcomplete. }
  exists b. split; [done|]. destruct b as [[g|] [s|]]; try done.
  - destruct Hbest as (Hg & Hs & Hmax). destruct (Hsound g Hg).
    split_and!; try done. intros q Hq Hk. by apply Hmax.
  - destruct Hbest as [_ Hnone]. intros q Hq Hk. by apply (Hnone q).
Qed.

Lemma best_group_optimal_witness :
  graph_wf scenario /\
  exists lib b, precompute_unique_paths scenario 3 = Ok lib /\
    find_max_group scenario lib = Ok b /\
    b = (Some ["A"; "B"; "C"], Some 11).
Proof.
  split; [exact scenario_wf|].
  destruct (best_group_optimal scenario 3 _ scenario_wf scenario_paths_3)
    as (b & Hb & _).
  exists [["A"; "B"; "C"]; ["A"; "C"; "D"]; ["B"; "C"; "D"]; ["C"; "D"; "E"]], b.
  split; [exact scenario_paths_3|]. split; [exact Hb|].
  vm_compute in Hb. by injection Hb.
Defined.

(** X4.  The best group among the entries that contain a given node is a
    simple path of [k] nodes through that node whose score no simple path of
    [k] nodes through the node exceeds; the search does not raise, and it
    returns [(None, None)] exactly when no simple path of [k] nodes of the
    graph goes through the node. *)
Theorem best_group_with_node_optimal G k lib n :
  graph_wf G -> precompute_unique_paths G k = Ok lib ->
  exists b, find_max_group G (query_paths_with_node lib n) = Ok b /\
    match b with
    | (Some g, Some s) =>
        n ∈ g /\ Z.of_nat (length g) = k /\ simple_path G g /\
        compute_group_score G g = Ok s /\
        forall q, simple_path G q -> Z.of_nat (length q) = k -> n ∈ q ->
          exists s', compute_group_score G q = Ok s' /\ s' <= s
    | (None, None) =>
        forall q, simple_path G q -> Z.of_nat (length q) = k -> n ∉ q
    | _ => False
    end.
Proof.
  intros HG Hlib.
  destruct (library_facts G k HG) as (lib' & Hlib' & Hsound & Hcomplete).
  assert (lib' = lib) as -> by congruence.
  destruct (find_max_group_optimal G (query_paths_with_node lib n)
              (fun q => simple_path G q /\ Z.of_nat (length q) = k /\ n ∈ q) HG)
    as (b & Hb & Hbest).
  { apply Forall_forall. intros p [_ Hp]%elem_of_query_paths_with_node.
    apply simple_path_nodes. by apply (Hsound p). }
  { intros q (Hq & Hk & Hn). destruct (Hcomplete q Hq Hk) as (p & Hp & Hpq).
    exists p. split; [|done]. apply elem_of_query_paths_with_node.
    split; [by rewrite Hpq|done]. }
  exists b. split; [done|]. destruct b as [[g|] [s|]]; try done.
  - destruct Hbest as ([Hn Hg]%elem_of_query_paths_with_node & Hs & Hmax).
    destruct (Hsound g Hg). split_and!; try done.
    intros q Hq Hk Hnq. by apply Hmax.
  - destruct Hbest as [_ Hnone]. intros q Hq Hk Hn. by apply (Hnone q).
Qed.

Lemma best_group_with_node_optimal_witness :
  graph_wf scenario /\
  exists lib b, precompute_unique_paths scenario 3 = Ok lib /\
    find_max_group scenario (query_paths_with_node lib "E") = Ok b /\
    b = (Some ["C"; "D"; "E"], Some 6).
Proof.
  split; [exact scenario_wf|].
  destruct (best_group_with_node_optimal scenario 3 _ "E" scenario_wf
              scenario_paths_3) as (b & Hb & _).
  exists [["A"; "B"; "C"]; ["A"; "C"; "D"]; ["B"; "C"; "D"]; ["C"; "D"; "E"]], b.
  split; [exact scenario_paths_3|]. split; [exact Hb|].
  vm_compute in Hb. by injection Hb.
Defined.

(** ** What a call of [dfs] leaves behind *)

Lemma foldl_record_prefix a ws : a.1 `prefix_of` (foldl record a ws).1.
Proof.
  revert a. induction ws as [|w ws IH]; intros a; simpl; [done|].
  etrans; [|apply IH]. unfold record.
  destruct (decide (sorted w ∈ a.2)); simpl; [done|]. by apply prefix_app_r.
Qed.

(** X6.  A call of [dfs] made with a path of distinct nodes of the graph that
    ends the recursion in time returns, with [path] as it was when the call
    began; what was in [all_paths] stays at the front in the same order, what
    was in [unique_paths] stays, and every path added has [k] nodes and begins
    with the path of the call. *)
Theorem dfs_restores_path fuel G k current s :
  graph_wf G -> current ∈ nodes G ->
  NoDup (path s) -> path s ⊆ nodes G ->
  (length (nodes G) < fuel + length (path s))%nat ->
  exists s', dfs fuel G k current s = Ok s' /\
    path s' = path s /\
    all_paths s `prefix_of` all_paths s' /\
    unique_paths s ⊆ unique_paths s' /\
    forall p, p ∈ all_paths s' ->
      p ∈ all_paths s \/ (path s `prefix_of` p /\ Z.of_nat (length p) = k).
Proof.
  intros HG Hcur Hnd Hsub Hfuel. rewrite dfs_walks by done.
  eexists; split; [done|]. simpl. split_and!.
  - done.
  - apply (foldl_record_prefix (accs_of s)).
  - intros x Hx. by apply (foldl_record_mono (accs_of s)).
  - intros p [Hp|Hp]%foldl_record_sub; [by left|right].
    apply walks_sound in Hp as (suffix & -> & Hk & _); [|done].
    split; [by apply prefix_app_r|done].
Qed.

Lemma dfs_restores_path_witness :
  graph_wf scenario /\ "A" ∈ nodes scenario /\
  exists s', dfs 5 scenario 3 "A" (DfsState [["E"; "D"; "C"]] ∅ ["A"]) = Ok s' /\
    path s' = ["A"] /\
    [["E"; "D"; "C"]] `prefix_of` all_paths s'.
Proof.
  assert ("A" ∈ nodes scenario) as Ha by by_computation.
  split; [exact scenario_wf|]. split; [exact Ha|].
  destruct (dfs_restores_path 5 scenario 3 "A"
              (DfsState [["E"; "D"; "C"]] ∅ ["A"]) scenario_wf Ha)
    as (s' & Hs' & Hp & Hpre & _).
  - apply NoDup_singleton.
  - intros x Hx%list_elem_of_singleton. by subst.
  - vm_compute. lia.
  - exists s'. split; [exact Hs'|]. split; [exact Hp|exact Hpre].
Defined.

(** ** The built graph on any table *)

Lemma occurrences_cons {A} `{EqDecision A} (x y : A) l :
  occurrences x (y :: l)
  = ((if decide (x = y) then 1 else 0) + occurrences x l)%nat.
Proof.
  unfold occurrences. rewrite filter_cons. by destruct (decide (x = y)).
Qed.

Lemma occurrences_Permutation {A} `{EqDecision A} (x : A) l1 l2 :
  l1 ≡ₚ l2 -> occurrences x l1 = occurrences x l2.
Proof. intros H12. unfold occurrences. by rewrite H12. Qed.

Lemma pair_count_fmap_pair x l u v :
  pair_count u v (pair x <$> l)
  = if decide (u = x) then occurrences v l
    else if decide (v = x) then occurrences u l else 0%nat.
Proof.
  unfold pair_count, occurrences. rewrite filter_fmap, length_fmap.
  destruct (decide (u = x)) as [->|Hux]; [|destruct (decide (v = x)) as [->|Hvx]].
  - f_equal. apply list_filter_iff. intros y. unfold same_pair. simpl.
    naive_solver.
  - f_equal. apply list_filter_iff. intros y. unfold same_pair. simpl.
    naive_solver.
  - rewrite (list_filter_iff _ (fun y => False)).
    2:{ intros y. unfold same_pair. simpl. naive_solver. }
    clear. induction l; [done|]. by rewrite filter_cons_False by tauto.
Qed.

(** Among the pairs of a list, two different values are paired once for every
    choice of an occurrence of each. *)
Lemma pair_count_combinations2_occurrences u v l :
  u <> v ->
  pair_count u v (combinations2 l) = (occurrences u l * occurrences v l)%nat.
Proof.
  intros Huv. induction l as [|x l IH]; [done|].
  simpl combinations2. rewrite pair_count_app, pair_count_fmap_pair, IH.
  rewrite !occurrences_cons. repeat case_decide; subst; try done; nia.
Qed.

(** A value is paired with itself exactly when it occurs twice. *)
Lemma pair_count_combinations2_self u l :
  (0 < pair_count u u (combinations2 l))%nat <-> (2 <= occurrences u l)%nat.
Proof.
  induction l as [|x l IH]; [simpl; unfold pair_count, occurrences; simpl; lia|].
  simpl combinations2. rewrite pair_count_app, pair_count_fmap_pair.
  rewrite occurrences_cons. repeat case_decide; subst; try done; lia.
Qed.

Lemma pair_count_bind {X} (gs : list X) (f : X -> list (node * node)) u v :
  pair_count u v (gs ≫= f) = sum_list_with (fun g => pair_count u v (f g)) gs.
Proof.
  induction gs as [|g gs IH]; [done|].
  by rewrite (bind_cons f g gs), pair_count_app, IH.
Qed.

Lemma sum_list_with_ext_in {X} (f g : X -> nat) l :
  (forall x, x ∈ l -> f x = g x) -> sum_list_with f l = sum_list_with g l.
Proof.
  induction l as [|x l IH]; intros Hfg; simpl; [done|].
  rewrite Hfg by left. f_equal. apply IH. intros; apply Hfg. by right.
Qed.

Lemma sum_list_with_pos {X} (f : X -> nat) l :
  (0 < sum_list_with f l)%nat <-> exists x, x ∈ l /\ (0 < f x)%nat.
Proof.
  induction l as [|x l IH]; simpl.
  - split; [lia|]. by intros (x & ?%elem_of_nil & _).
  - split.
    + intros H. destruct (decide (0 < f x)%nat); [exists x; split; [left|done]|].
      destruct (proj1 IH) as (y & Hy & Hfy); [lia|].
      exists y. split; [by right|done].
    + intros (y & [->|Hy]%elem_of_cons & Hfy); [lia|].
      assert (0 < sum_list_with f l)%nat by (apply IH; eauto). lia.
Qed.

(** The players of a roster, counted. *)
Lemma occurrences_roster df g p :
  g ∈ groupby df ->
  occurrences p (sorted (Player <$> g.2)) = named_in df g.1 p.
Proof.
  intros [_ Hrows]%elem_of_groupby.
  rewrite (occurrences_Permutation _ _ _ (sorted_Permutation _)), Hrows.
  unfold occurrences, named_in.
  rewrite filter_fmap, length_fmap, list_filter_filter. f_equal.
  apply list_filter_iff. intros r. simpl. naive_solver.
Qed.

Lemma sum_list_with_fmap {X Y} (f : Y -> nat) (h : X -> Y) l :
  sum_list_with f (h <$> l) = sum_list_with (fun x => f (h x)) l.
Proof. induction l as [|x l IH]; csimpl; [done|]. by rewrite IH. Qed.

Lemma pair_count_all_pairs_pairings df u v :
  u <> v -> pair_count u v (all_pairs df) = pairings df u v.
Proof.
  intros Huv. unfold all_pairs, pairings. rewrite pair_count_bind.
  rewrite <-keys_groupby, sum_list_with_fmap.
  apply sum_list_with_ext_in. intros g Hg. unfold roster_pairs.
  rewrite pair_count_combinations2_occurrences by done.
  by rewrite !(occurrences_roster df g) by done.
Qed.

Lemma pair_count_all_pairs_self df u :
  (0 < pair_count u u (all_pairs df))%nat
  <-> exists k, (2 <= named_in df k u)%nat.
Proof.
  unfold all_pairs. rewrite pair_count_bind, sum_list_with_pos. split.
  - intros (g & Hg & Hpos). exists g.1. unfold roster_pairs in Hpos.
    apply pair_count_combinations2_self in Hpos.
    by rewrite (occurrences_roster df g) in Hpos.
  - intros (k & Hk).
    assert (k ∈ row_key <$> df) as Hin.
    { unfold named_in in Hk.
      destruct (filter _ df) as [|r l] eqn:Hf; [simpl in Hk; lia|].
      assert (r ∈ filter (fun r => row_key r = k /\ Player r = u) df) as Hr
        by (rewrite Hf; left).
      apply list_elem_of_filter in Hr as [[<- _] Hr].
      by apply list_elem_of_fmap_2. }
    exists (k, filter (fun r => row_key r = k) df).
    assert ((k, filter (fun r => row_key r = k) df) ∈ groupby df) as Hg
      by (by apply elem_of_groupby).
    split; [done|]. unfold roster_pairs.
    apply pair_count_combinations2_self.
    by rewrite (occurrences_roster df _ u Hg).
Qed.

Lemma named_in_pos df k p :
  (0 < named_in df k p)%nat <-> k ∈ groups_of df p.
Proof.
  rewrite elem_of_groups_of. unfold named_in. split.
  - destruct (filter _ df) as [|r l] eqn:Hf; [simpl; lia|]. intros _.
    assert (r ∈ filter (fun r => row_key r = k /\ Player r = p) df) as Hr
      by (rewrite Hf; left).
    apply list_elem_of_filter in Hr as [[? ?] ?]. eauto.
  - intros (r & Hr & Hk & Hp).
    assert (r ∈ filter (fun r => row_key r = k /\ Player r = p) df) as Hin
      by (by apply list_elem_of_filter).
    destruct (filter _ df); [by apply elem_of_nil in Hin|simpl; lia].
Qed.

(** X7.  In the graph built from any table every node has a weight of at
    least 1 and every edge has a weight of at least 1. *)
Theorem built_weights_positive df :
  exists G, build_graph df = Ok G /\
    (forall p, p ∈ nodes G ->
       exists w, nodes_getitem G p = Ok (Some w) /\ 1 <= w) /\
    (forall u v, has_edge G u v = true ->
       exists w, edge_weight G u v = Ok w /\ 1 <= w).
Proof.
  destruct (build_graph_built df) as (G & HG & HB).
  exists G. split_and!; [done| |].
  - intros p Hp. rewrite (b_nodes df G HB), elem_of_remove_dups in Hp.
    eexists. split; [by apply (b_attrs df G HB)|].
    apply list_elem_of_fmap in Hp as (r & -> & Hr).
    assert (r ∈ rows_naming df (Player r)) as Hin
      by (by apply list_elem_of_filter).
    destruct (rows_naming df (Player r)); [by apply elem_of_nil in Hin|].
    simpl. lia.
  - intros u v Huv. eexists. split.
    + apply edge_weight_pair_weight;
        [apply (b_wf df G HB)|apply (b_weighted df G HB)|done].
    + rewrite (b_edge df G HB), bool_decide_eq_true in Huv.
      rewrite (b_weight df G HB). lia.
Qed.

(** X8.  In the graph built from any table, repeated rows included, two
    different players have an edge exactly when some roster names both, and
    the weight of the edge counts, roster by roster, every way of taking a row
    that names the one and a row that names the other; a player has an edge to
    itself exactly when some roster names the player in two rows. *)
Theorem built_edges_any_table df :
  exists G, build_graph df = Ok G /\
    (forall u v, u <> v ->
       (has_edge G u v = true
        <-> exists k, k ∈ groups_of df u /\ k ∈ groups_of df v) /\
       (has_edge G u v = true ->
        edge_weight G u v = Ok (Z.of_nat (pairings df u v)))) /\
    (forall u, has_edge G u u = true
               <-> exists k, (2 <= named_in df k u)%nat).
Proof.
  destruct (build_graph_built df) as (G & HG & HB).
  exists G. split_and!; [done| |].
  - intros u v Huv. split.
    + rewrite (b_edge df G HB), bool_decide_eq_true.
      rewrite pair_count_all_pairs_pairings by done.
      unfold pairings. rewrite sum_list_with_pos. split.
      * intros (k & _ & Hk). exists k. rewrite <-!named_in_pos. nia.
      * intros (k & Hu & Hv). exists k. split.
        -- rewrite <-keys_groupby. by eapply groups_of_keys.
        -- apply named_in_pos in Hu, Hv. nia.
    + intros He. rewrite edge_weight_pair_weight;
        [|apply (b_wf df G HB)|apply (b_weighted df G HB)|done].
      by rewrite (b_weight df G HB), pair_count_all_pairs_pairings.
  - intros u. rewrite (b_edge df G HB), bool_decide_eq_true.
    apply pair_count_all_pairs_self.
Qed.

Lemma built_edges_any_table_witness :
  exists G, build_graph repeated_rows = Ok G /\
    "A" <> "B" /\ has_edge G "A" "B" = true /\
    edge_weight G "A" "B" = Ok (Z.of_nat (pairings repeated_rows "A" "B")) /\
    pairings repeated_rows "A" "B" = 2%nat.
Proof.
  destruct (built_edges_any_table repeated_rows) as (G & HG & Hne & _).
  assert ("A" <> "B") as Hab by discriminate.
  destruct (Hne "A" "B" Hab) as [Hedge Hweight].
  assert (has_edge G "A" "B" = true) as He.
  { apply Hedge. exists ("2023-24", "Boston Celtics"). split; by_computation. }
  exists G. split; [exact HG|]. split; [exact Hab|]. split; [exact He|].
  split; [exact (Hweight He)|]. vm_compute. reflexivity.
Defined.

(** X9.  In the graph built from a table in which no row occurs twice, the
    weight of an edge exceeds the weight of neither of its two nodes: two
    players have won together no more often than either has won. *)
Theorem built_edge_weight_le_node_weight df :
  NoDup df ->
  exists G, build_graph df = Ok G /\
    forall u v, has_edge G u v = true ->
      exists w wu wv, edge_weight G u v = Ok w /\
        nodes_getitem G u = Ok (Some wu) /\ nodes_getitem G v = Ok (Some wv) /\
        w <= wu /\ w <= wv.
Proof.
  intros Hdf. destruct (build_graph_built df) as (G & HG & HB).
  exists G. split; [done|]. intros u v Huv.
  pose proof Huv as Hpos.
  rewrite (b_edge df G HB), bool_decide_eq_true in Hpos.
  rewrite pair_count_all_pairs in Hpos by done.
  destruct (decide (u = v)) as [|Hne]; [lia|].
  assert (forall p k, k ∈ groups_of df p -> p ∈ Player <$> df) as Hplayer.
  { intros p k (r & Hr & _ & <-)%elem_of_groups_of. by apply list_elem_of_fmap_2. }
  destruct (co_groups df u v) as [|k0 l] eqn:Hco; [simpl in Hpos; lia|].
  assert (k0 ∈ co_groups df u v) as Hk0 by (rewrite Hco; left).
  apply list_elem_of_filter in Hk0 as [Hk0v Hk0u].
  exists (Z.of_nat (length (co_groups df u v))),
         (Z.of_nat (length (rows_naming df u))),
         (Z.of_nat (length (rows_naming df v))).
  split_and!.
  - rewrite edge_weight_pair_weight;
      [|apply (b_wf df G HB)|apply (b_weighted df G HB)|done].
    rewrite (b_weight df G HB), pair_count_all_pairs by done.
    by rewrite decide_False.
  - apply (b_attrs df G HB). by eapply Hplayer.
  - apply (b_attrs df G HB). by eapply Hplayer.
  - rewrite <-length_groups_of by done. unfold co_groups.
    pose proof (length_filter (fun k => k ∈ groups_of df v) (groups_of df u)).
    lia.
  - rewrite <-(length_groups_of df v) by done.
    apply inj_le, submseteq_length, NoDup_submseteq.
    + apply NoDup_filter, NoDup_remove_dups.
    + intros k [? _]%list_elem_of_filter. done.
Qed.

Lemma built_edge_weight_le_node_weight_witness :
  NoDup clean_rows /\
  exists G, build_graph clean_rows = Ok G /\
    exists w wu wv, edge_weight G "A" "C" = Ok w /\
      nodes_getitem G "A" = Ok (Some wu) /\
      nodes_getitem G "C" = Ok (Some wv) /\ w <= wu /\ w <= wv.
Proof.
  assert (NoDup clean_rows) as Hdf by by_computation.
  split; [exact Hdf|].
  destruct (built_edge_weight_le_node_weight clean_rows Hdf) as (G & HG & Hle).
  exists G. split; [exact HG|]. apply Hle.
  rewrite clean_rows_graph in HG. injection HG as <-. vm_compute. reflexivity.
Defined.

(** ** From the table to the best team *)




(** ** A lower bound of the score *)

Lemma Zsum_nonneg zs : Forall (fun z => 0 <= z) zs -> 0 <= Zsum zs.
Proof. induction 1; simpl; lia. Qed.

Lemma Zsum_ge_length zs :
  Forall (fun z => 1 <= z) zs -> Z.of_nat (length zs) <= Zsum zs.
Proof. induction 1; simpl; lia. Qed.

Lemma pair_sum_chain (f : node -> node -> Z) G g :
  (forall u v, 0 <= f u v) ->
  (forall u v, has_edge G u v = true -> 1 <= f u v) ->
  chain G g -> Z.of_nat (length g) - 1 <= pair_sum f g.
Proof.
  intros H0 H1. induction g as [|x g IH]; [done|].
  intros [Hx Hg]. rewrite pair_sum_cons. specialize (IH Hg).
  destruct g as [|y g]; [simpl; unfold pair_sum; simpl; lia|].
  assert (1 <= Zsum (f x <$> y :: g)).
  { csimpl. pose proof (H1 x y Hx).
    assert (0 <= Zsum (f x <$> g)); [|lia].
    apply Zsum_nonneg, Forall_fmap, Forall_forall. intros v _. apply H0. }
  simpl length in *. lia.
Qed.

(** X11.  In the graph built from any table, every group of the library of [k]
    nodes scores at least [2 k - 1]: each of its members has won at least once
    and each member has won at least once with the next. *)
Theorem library_score_lower_bound df k :
  exists G lib, build_graph df = Ok G /\
    precompute_unique_paths G k = Ok lib /\
    forall g, g ∈ lib ->
      exists s, compute_group_score G g = Ok s /\ 2 * k - 1 <= s.
Proof.
  destruct (build_graph_built df) as (G & HG & HB).
  pose proof (b_wf df G HB) as Hwf.
  destruct (library_facts G k Hwf) as (lib & Hlib & Hsound & _).
  exists G, lib. split_and!; [done..|]. intros g Hg.
  destruct (Hsound g Hg) as (Hk & _ & Hin & _ & Hch).
  eexists. split; [by apply compute_group_score_Ok|].
  unfold group_score_spec.
  assert (forall u v, has_edge G u v = true -> 1 <= pair_weight G u v) as H1.
  { intros u v Huv. rewrite (b_edge df G HB), bool_decide_eq_true in Huv.
    rewrite (b_weight df G HB). lia. }
  assert (forall u v, 0 <= pair_weight G u v) as H0.
  { intros u v. rewrite (b_weight df G HB). lia. }
  pose proof (pair_sum_chain (pair_weight G) G g H0 H1 Hch).
  assert (Z.of_nat (length g) <= Zsum (node_weight G <$> g)); [|lia].
  rewrite <-(length_fmap (node_weight G)).
  apply Zsum_ge_length, Forall_fmap. eapply Forall_impl; [exact Hin|].
  intros p Hp. simpl in *. unfold node_weight.
  rewrite (b_nodes df G HB), elem_of_remove_dups in Hp.
  rewrite (b_attrs df G HB) by done. simpl.
  apply list_elem_of_fmap in Hp as (r & -> & Hr).
  assert (r ∈ rows_naming df (Player r)) as Hrn
    by (by apply list_elem_of_filter).
  destruct (rows_naming df (Player r)); [by apply elem_of_nil in Hrn|].
  simpl. lia.
Qed.


(** ** Season strings *)




Lemma split_no_sep sep s : count_char sep s = 0%nat -> split sep s = [s].
Proof.
  induction s as [|c s IH]; simpl; [done|].
  destruct (decide (c = sep)); [done|]. intros Hs. by rewrite IH.
Qed.

Lemma split_append sep a b :
  count_char sep a = 0%nat ->
  split sep (a +:+ String sep b) = a :: split sep b.
Proof.
  induction a as [|c a IH]; simpl.
  - by rewrite decide_True.
  - destruct (decide (c = sep)); [done|]. intros Ha. by rewrite IH.
Qed.



Lemma digit_value_bounds c d :
  digit_value c = Some d -> 0 <= d <= 9 /\ Z.of_N (N_of_ascii c) = d + 48.
Proof.
  unfold digit_value. case_bool_decide; [|done]. intros [= <-]. lia.
Qed.




Lemma digit_not_special c :
  is_Some (digit_value c) ->
  is_space c = false /\ c <> "_"%char /\ c <> "+"%char /\ c <> "-"%char.
Proof.
  intros [d Hd]. split_and!.
  - unfold is_space. apply digit_value_bounds in Hd as [? ?].
    apply not_true_iff_false. intros Htrue.
    apply orb_true_iff in Htrue
      as [[_ ?%N.leb_le]%andb_true_iff|[_ ?%N.leb_le]%andb_true_iff]; lia.
  - intros ->. by vm_compute in Hd.
  - intros ->. by vm_compute in Hd.
  - intros ->. by vm_compute in Hd.
Qed.

Lemma rstrip_digits s : all_digits s -> rstrip s = s.
Proof.
  induction s as [|c s IH]; simpl; [done|]. intros [Hc Hs].
  rewrite IH by done. apply digit_not_special in Hc as (-> & _).
  by destruct s.
Qed.

Lemma digits_from_decimal acc s :
  all_digits s -> digits_from acc false s = Some (decimal_from acc s).
Proof.
  revert acc. induction s as [|c s IH]; intros acc; simpl; [done|].
  intros [Hc Hs]. pose proof (digit_not_special c Hc) as (_ & ? & _).
  rewrite decide_False by done. destruct Hc as [d ->]. simpl. by apply IH.
Qed.

(** A non-empty string of digits is read as the number it writes. *)
Lemma py_int_digits s :
  all_digits s -> s <> EmptyString -> py_int s = Some (decimal s).
Proof.
  intros Hs Hne. unfold py_int. rewrite rstrip_digits by done.
  destruct s as [|c s]; [done|]. destruct Hs as [Hc Hs].
  pose proof (digit_not_special c Hc) as (Hsp & _ & ? & ?).
  simpl. rewrite Hsp. rewrite !decide_False by done.
  simpl. destruct Hc as [d Hd]. rewrite Hd. simpl.
  rewrite digits_from_decimal by done. unfold decimal. simpl. by rewrite Hd.
Qed.

Lemma count_char_digits s : all_digits s -> count_char "-" s = 0%nat.
Proof.
  induction s as [|c s IH]; simpl; [done|]. intros [Hc Hs].
  pose proof (digit_not_special c Hc) as (_ & _ & _ & ?).
  rewrite decide_False by done. by rewrite IH.
Qed.

Lemma decimal_from_bounds acc s :
  0 <= acc -> all_digits s -> 0 <= decimal_from acc s.
Proof.
  revert acc. induction s as [|c s IH]; intros acc Hacc; simpl; [done|].
  intros [[d Hd] Hs]. rewrite Hd. simpl.
  apply digit_value_bounds in Hd. apply IH; [lia|done].
Qed.

Lemma get_year_from_season_append a b :
  count_char "-" a = 0%nat -> count_char "-" b = 0%nat ->
  get_year_from_season (a +:+ String "-" b) =
  (fun end_year => if bool_decide (end_year < 50) then end_year + 2000
                   else end_year + 1900) <$> py_int b.
Proof.
  intros Ha Hb. unfold get_year_from_season.
  rewrite split_append, split_no_sep by done. simpl.
  by destruct (py_int b).
Qed.




(** ** The data collection notebook *)



(** X13.  What stands before the hyphen is not looked at: when a non-empty
    string of at most 4300 digits follows the only hyphen, the answer is the
    number the digits write, plus 2000 when it is below 50 and plus 1900
    otherwise.  So ['Dec-11'] gives 2011. *)
Theorem get_year_from_season_digits a ds :
  count_char "-" a = 0%nat ->
  all_digits ds -> ds <> EmptyString -> (String.length ds <= 4300)%nat ->
  get_year_from_season (a +:+ String "-" ds) =
  Some (if bool_decide (decimal ds < 50) then decimal ds + 2000
        else decimal ds + 1900).
Proof.
  intros Ha Hds Hne _.
  rewrite get_year_from_season_append by auto using count_char_digits.
  by rewrite py_int_digits.
Qed.

Lemma get_year_from_season_digits_witness :
  get_year_from_season "Dec-11" = Some 2011.
Proof.
  apply (get_year_from_season_digits "Dec" "11").
  - reflexivity.
  - simpl. split_and!; try done; by eexists.
  - done.
  - simpl. lia.
Defined.


(** ** The order of the nodes of the built graph *)

Global Instance count_ge_total : Total count_ge.
Proof. intros a b. unfold count_ge. lia. Qed.

Global Instance count_ge_trans : Transitive count_ge.
Proof. intros a b c. unfold count_ge. lia. Qed.

Lemma StronglySorted_fmap_inv {A B} (f : A -> B) (R : relation B) l :
  StronglySorted R (f <$> l) -> StronglySorted (fun x y => R (f x) (f y)) l.
Proof.
  induction l as [|x l IH]; csimpl; [constructor|].
  intros [Hl Hx]%StronglySorted_inv. constructor; [by apply IH|].
  apply Forall_forall. intros y Hy.
  apply (proj1 (Forall_forall _ _) Hx), list_elem_of_fmap. by exists y.
Qed.

(** X15.  The nodes of the graph built from any table are listed in the order
    of [value_counts], so by weight, the larger weights first: no node is
    listed before a node of a larger weight.  This is the order in which the
    enumeration starts its searches. *)
Theorem built_nodes_by_weight df :
  exists G, build_graph df = Ok G /\
    StronglySorted (fun u v => node_weight G v <= node_weight G u) (nodes G).
Proof.
  destruct (build_graph_spec df) as (G & HG & HP). exists G. split; [done|].
  pose proof (initial_graph_spec df) as H0.
  set (d := value_counts (Player <$> df)) in *.
  assert (node_weight G <$> nodes G = d.*2) as Hweights.
  { rewrite (ps_nodes _ _ _ HP), (na_nodes _ _ H0). unfold keys.
    rewrite <-list_fmap_compose. apply list_fmap_ext.
    intros i [n w] Hi%list_elem_of_lookup_2. simpl.
    unfold node_weight. rewrite (ps_attrs _ _ _ HP), (na_attrs _ _ H0).
    - by rewrite (dict_get_elem d n w (NoDup_keys_value_counts _) Hi).
    - rewrite (na_nodes _ _ H0). apply list_elem_of_fmap. by exists (n, w). }
  apply (StronglySorted_fmap_inv (node_weight G) (fun a b => b <= a)).
  rewrite Hweights.
  apply (StronglySorted_fmap snd count_ge); [done|].
  apply (StronglySorted_merge_sort count_ge).
Qed.
